(** * Verification of the image obfuscation core of [image_encrypt.py]

    The development embeds the key stream generator, the index shuffle and
    its inverse, the pixel codec, the two transform pipelines and the two
    entry points of [src/image_encrypt.py], and proves the properties of
    the specification about them.

    Conventions of the embedding:
    - a Python [bytes] / [bytearray] is a [list Z] whose elements satisfy
      [is_byte]; storing a value outside [0, 256) raises [ValueError];
    - list and bytearray indexing outside the bounds raises [IndexError];
      indices are natural numbers;
    - code that can raise returns a [result]; code that can touch the
      state of the interpreter (generator objects, files, standard
      output) runs in the state and error monad [Py];
    - a Python [str] is a [string] of code points below 256;
    - [hashlib.sha256] is the function of FIPS 180-4, written out in
      module [SHA256] and checked on test vectors;
    - [random.Random] is an interface ([PyRandom]): the proofs use only
      the documented contract of [_randbelow]. *)

From Stdlib Require Import ZArith List String Ascii Lia Permutation.
From stdpp Require Import base tactics option list gmap strings.
From Equations Require Import Equations.
Import ListNotations.

Local Open Scope Z_scope.

(** ** Bytes *)

Abbreviation bytes := (list Z) (only parsing).

Definition is_byte (b : Z) : Prop := 0 <= b < 256.

Definition is_byteb (b : Z) : bool := (0 <=? b) && (b <? 256).

Definition all_bytes (l : bytes) : Prop := Forall is_byte l.

#[export] Instance is_byte_dec (b : Z) : Decision (is_byte b) :=
  decide (0 <= b < 256).

(** ** hashlib.sha256 *)

Module SHA256.

Definition wrap32 (x : Z) : Z := x mod 2 ^ 32.

Definition add32 (x y : Z) : Z := wrap32 (x + y).

Definition rotr (n x : Z) : Z :=
  Z.lor (Z.shiftr x n) (wrap32 (Z.shiftl x (32 - n))).

Definition not32 (x : Z) : Z := Z.lxor x (2 ^ 32 - 1).

Definition choose (x y z : Z) : Z :=
  Z.lxor (Z.land x y) (Z.land (not32 x) z).

Definition majority (x y z : Z) : Z :=
  Z.lxor (Z.lxor (Z.land x y) (Z.land x z)) (Z.land y z).

Definition big_sigma0 (x : Z) : Z :=
  Z.lxor (Z.lxor (rotr 2 x) (rotr 13 x)) (rotr 22 x).

Definition big_sigma1 (x : Z) : Z :=
  Z.lxor (Z.lxor (rotr 6 x) (rotr 11 x)) (rotr 25 x).

Definition small_sigma0 (x : Z) : Z :=
  Z.lxor (Z.lxor (rotr 7 x) (rotr 18 x)) (Z.shiftr x 3).

Definition small_sigma1 (x : Z) : Z :=
  Z.lxor (Z.lxor (rotr 17 x) (rotr 19 x)) (Z.shiftr x 10).

(** Round constants: the first 32 bits of the fractional parts of the
    cube roots of the first 64 primes. *)
Definition round_constants : list Z :=
  [ 1116352408; 1899447441; 3049323471; 3921009573; 961987163; 1508970993;
    2453635748; 2870763221; 3624381080; 310598401; 607225278; 1426881987;
    1925078388; 2162078206; 2614888103; 3248222580; 3835390401; 4022224774;
    264347078; 604807628; 770255983; 1249150122; 1555081692; 1996064986;
    2554220882; 2821834349; 2952996808; 3210313671; 3336571891; 3584528711;
    113926993; 338241895; 666307205; 773529912; 1294757372; 1396182291;
    1695183700; 1986661051; 2177026350; 2456956037; 2730485921; 2820302411;
    3259730800; 3345764771; 3516065817; 3600352804; 4094571909; 275423344;
    430227734; 506948616; 659060556; 883997877; 958139571; 1322822218;
    1537002063; 1747873779; 1955562222; 2024104815; 2227730452; 2361852424;
    2428436474; 2756734187; 3204031479; 3329325298 ].

(** The eight working registers. *)
Record regs := Regs {
  ra : Z; rb : Z; rc : Z; rd : Z; re : Z; rf : Z; rg : Z; rh : Z }.

Definition initial_regs : regs :=
  Regs 1779033703 3144134277 1013904242 2773480762
       1359893119 2600822924 528734635 1541459225.

(** [be_bytes n v]: the [n] low bytes of [v], most significant first. *)
Definition be_bytes (n : nat) (v : Z) : bytes :=
  map (fun i => Z.shiftr v (8 * Z.of_nat i) mod 256) (rev (seq 0 n)).

Definition be_value (l : bytes) : Z :=
  fold_left (fun acc b => acc * 256 + b) l 0.

Definition pad (msg : bytes) : bytes :=
  let len := Z.of_nat (length msg) in
  msg ++ [128] ++ repeat 0 (Z.to_nat ((55 - len) mod 64))
      ++ be_bytes 8 (8 * len).

Fixpoint words_of_bytes (l : bytes) : list Z :=
  match l with
  | b0 :: b1 :: b2 :: b3 :: rest =>
      be_value [b0; b1; b2; b3] :: words_of_bytes rest
  | _ => []
  end.

(** Message schedule: the 16 words of the block followed by 48 derived
    words. *)
Definition schedule_step (w : list Z) (t : nat) : list Z :=
  w ++ [ add32 (add32 (add32 (small_sigma1 (nth (t - 2) w 0))
                              (nth (t - 7) w 0))
                       (small_sigma0 (nth (t - 15) w 0)))
               (nth (t - 16) w 0) ].

Definition schedule (block : list Z) : list Z :=
  fold_left schedule_step (seq 16 48) block.

Definition round (r : regs) (kw : Z * Z) : regs :=
  let t1 := add32 (add32 (add32 (add32 (rh r) (big_sigma1 (re r)))
                                (choose (re r) (rf r) (rg r)))
                         (fst kw))
                  (snd kw) in
  let t2 := add32 (big_sigma0 (ra r)) (majority (ra r) (rb r) (rc r)) in
  Regs (add32 t1 t2) (ra r) (rb r) (rc r) (add32 (rd r) t1)
       (re r) (rf r) (rg r).

Definition compress (r : regs) (block : list Z) : regs :=
  let r' := fold_left round (combine round_constants (schedule block)) r in
  Regs (add32 (ra r) (ra r')) (add32 (rb r) (rb r'))
       (add32 (rc r) (rc r')) (add32 (rd r) (rd r'))
       (add32 (re r) (re r')) (add32 (rf r) (rf r'))
       (add32 (rg r) (rg r')) (add32 (rh r) (rh r')).

Definition nth_block (words : list Z) (i : nat) : list Z :=
  firstn 16 (skipn (16 * i) words).

Definition digest_regs (msg : bytes) : regs :=
  let words := words_of_bytes (pad msg) in
  fold_left (fun r i => compress r (nth_block words i))
            (seq 0 (length words / 16)) initial_regs.

Definition regs_bytes (r : regs) : bytes :=
  be_bytes 4 (ra r) ++ be_bytes 4 (rb r) ++ be_bytes 4 (rc r)
    ++ be_bytes 4 (rd r) ++ be_bytes 4 (re r) ++ be_bytes 4 (rf r)
    ++ be_bytes 4 (rg r) ++ be_bytes 4 (rh r).

(** [hashlib.sha256(msg).digest()] *)
Definition digest (msg : bytes) : bytes := regs_bytes (digest_regs msg).

(** [hashlib.sha256(msg).hexdigest()], as the list of its hexadecimal
    digits (two per byte, high digit first). *)
Definition hexdigest (msg : bytes) : list Z :=
  flat_map (fun b => [b / 16; b mod 16]) (digest msg).

End SHA256.

(** ** Exceptions and the error monad *)

Inductive exn : Set :=
| ValueError
| IndexError
| TypeError
| FileNotFoundError
| SystemError.

Inductive result (A : Type) : Type :=
| Ok (a : A)
| Raise (e : exn).

Arguments Ok {A} a.
Arguments Raise {A} e.

#[export] Instance result_ret : MRet result := fun A a => Ok a.

#[export] Instance result_bind : MBind result := fun A B k m =>
  match m with
  | Ok a => k a
  | Raise e => Raise e
  end.

(** ** Python sequence primitives *)

(** [l[i]] for [0 <= i]. *)
Definition getitem {A} (l : list A) (i : nat) : result A :=
  match l !! i with
  | Some x => Ok x
  | None => Raise IndexError
  end.

(** [l[i] = v] on a list. *)
Definition list_setitem {A} (l : list A) (i : nat) (v : A) : result (list A) :=
  if decide (i < length l)%nat then Ok (<[i := v]> l) else Raise IndexError.

(** [b[i] = v] on a bytearray. *)
Definition bytearray_setitem (b : bytes) (i : nat) (v : Z) : result bytes :=
  if decide (i < length b)%nat then
    if is_byteb v then Ok (<[i := v]> b) else Raise ValueError
  else Raise IndexError.

(** [b.append(v)] on a bytearray. *)
Definition bytearray_append (b : bytes) (v : Z) : result bytes :=
  if is_byteb v then Ok (b ++ [v]) else Raise ValueError.

(** [for x in xs: s = body(x, s)], stopping at the first exception. *)
Fixpoint for_each {A S} (xs : list A) (body : A -> S -> result S) (s : S)
  : result S :=
  match xs with
  | [] => Ok s
  | x :: xs' => s' ← body x s; for_each xs' body s'
  end.

Definition enumerate {A} (l : list A) : list (nat * A) := imap pair l.

(** [range(0, stop, step)] for [step > 0]. *)
Definition range_step (stop step : nat) : list nat :=
  map (fun k => (k * step)%nat) (seq 0 ((stop + step - 1) / step)).

(** ** Text *)

(** A Python [str] is modelled by a [string] whose characters are the
    code points below 256; [encode_utf8] is [str.encode("utf-8")] on
    them. *)
Definition utf8_char (c : ascii) : bytes :=
  let n := Z.of_nat (nat_of_ascii c) in
  if n <? 128 then [n] else [192 + n / 64; 128 + n mod 64].

Definition encode_utf8 (s : string) : bytes :=
  flat_map utf8_char (list_ascii_of_string s).

(** [int(digits, 16)] on a list of hexadecimal digits. *)
Definition int_of_hex (digits : list Z) : Z :=
  fold_left (fun acc d => acc * 16 + d) digits 0.

(** ** _key_stream *)

(** The [while len(stream) < length] loop. *)
Equations? key_stream_loop (h : bytes) (len : nat) (stream : bytes)
  : bytes by wf (len - length stream)%nat lt :=
key_stream_loop h len stream with decide (length stream < len)%nat := {
  | left _ =>
      key_stream_loop h len
        (stream ++ SHA256.digest
           (if decide (32 <= length stream)%nat
            then h ++ drop (length stream - 32) stream
            else h));
  | right _ => stream }.
Proof.
  rewrite List.length_app. unfold SHA256.digest, SHA256.regs_bytes.
  rewrite !List.length_app. cbn. lia.
Qed.

Definition _key_stream (key : string) (len : nat) : bytes :=
  let h := SHA256.digest (encode_utf8 key) in
  take len (key_stream_loop h len []).

(** The hash chain in the words of the specification: block [0] is the
    hash of the seed, block [k + 1] is the hash of the seed followed by
    block [k]; [hash_chain h m] is the concatenation of the first [m]
    blocks. *)
Fixpoint chain_block (h : bytes) (k : nat) : bytes :=
  match k with
  | O => SHA256.digest h
  | S k' => SHA256.digest (h ++ chain_block h k')
  end.

Definition hash_chain (h : bytes) (m : nat) : bytes :=
  flat_map (chain_block h) (seq 0 m).

(** ** The random module *)

(** The interface of a [random.Random] generator: seeding and
    [_randbelow(n)], which returns an integer in [[0, n)]. *)
Class PyRandom := {
  rng_state : Type;
  seed_state : Z -> rng_state;
  randbelow : rng_state -> nat -> nat * rng_state;
  randbelow_lt : forall s n, (0 < n)%nat -> (fst (randbelow s n) < n)%nat
}.

(** A linear congruential generator that satisfies the interface; the
    development runs the model with it on concrete inputs. *)
#[export, refine] Instance lcg_random : PyRandom := {
  rng_state := Z;
  seed_state := fun seed => seed;
  randbelow := fun s n =>
    let s' := (6364136223846793005 * s + 1442695040888963407) mod 2 ^ 64 in
    (Z.to_nat (s' mod Z.of_nat n), s')
}.
Proof.
  intros s n Hn. cbn.
  pose proof (Z.mod_pos_bound
    ((6364136223846793005 * s + 1442695040888963407) mod 2 ^ 64)
    (Z.of_nat n)). lia.
Defined.

(** ** Images *)

(** An image as the codec hands it over after [convert("RGBA")]:
    [img.size] and [list(img.getdata())]. *)
Record Image : Type := mk_image {
  img_width : nat;
  img_height : nat;
  img_data : list (list Z)
}.

Definition rgba_pixelb (p : list Z) : bool :=
  (length p =? 4)%nat && forallb is_byteb p.

(** Well-formed images: [width * height] pixels of four byte values. *)
Definition wf_imageb (img : Image) : bool :=
  (length (img_data img) =? img_width img * img_height img)%nat
  && forallb rgba_pixelb (img_data img).

Definition wf_image (img : Image) : Prop := wf_imageb img = true.

(** [Image.new("RGBA", (width, height))] followed by [putdata(pixels)],
    for [width * height] RGBA tuples: they become the pixels of the new
    image, row by row. What the codec does with another number of
    entries or with an entry that is not an RGBA tuple is not modelled:
    the model refuses such a call. *)
Definition Image_new_putdata (width height : nat) (pixels : list (list Z))
  : result Image :=
  if decide (length pixels = width * height)%nat then
    if forallb rgba_pixelb pixels then Ok (mk_image width height pixels)
    else Raise TypeError
  else Raise TypeError.

(** ** _unshuffle_indices, _pixels_to_bytes, _bytes_to_pixels *)

Definition _unshuffle_indices (shuffled : list nat) : result (list nat) :=
  for_each (enumerate shuffled)
    (fun '(i, j) inverse => list_setitem inverse j i)
    (replicate (length shuffled) 0%nat).

Definition _pixels_to_bytes (pixels : list (list Z)) (channels : nat)
  : result bytes :=
  for_each pixels
    (fun p out =>
       for_each (seq 0 channels)
         (fun c out =>
            v ← (if decide (c < length p)%nat then getitem p c else Ok 255);
            bytearray_append out v)
         out)
    [].

Definition _bytes_to_pixels (data : bytes) (channels : nat)
  : result (list (list Z)) :=
  if decide (channels = 0%nat) then Raise ValueError
  else
    for_each (range_step (length data) channels)
      (fun i pixels => Ok (pixels ++ [take channels (drop i data)]))
      [].

(** [x[i], x[j] = x[j], x[i]] *)
Definition swap_items {A} (x : list A) (i j : nat) : result (list A) :=
  a ← getitem x j;
  b ← getitem x i;
  x1 ← list_setitem x i a;
  list_setitem x1 j b.

(** [for i in range(n): flat[i] ^= key_bytes[i]] *)
Definition xor_key (flat key_bytes : bytes) (n : nat) : result bytes :=
  for_each (seq 0 n)
    (fun i flat =>
       a ← getitem flat i;
       k ← getitem key_bytes i;
       bytearray_setitem flat i (Z.lxor a k))
    flat.

(** [int(hashlib.sha256(password.encode("utf-8")).hexdigest()[:16], 16)] *)
Definition password_seed (password : string) : Z :=
  int_of_hex (take 16 (SHA256.hexdigest (encode_utf8 password))).

(** [for i, j in enumerate(indices): shuffled[j] = flat[i]] *)
Definition scatter (flat : bytes) (indices : list nat) (n : nat)
  : result bytes :=
  for_each (enumerate indices)
    (fun '(i, j) shuffled =>
       v ← getitem flat i;
       bytearray_setitem shuffled j v)
    (replicate n 0).

(** [for i in range(n): unshuffled[inverse[i]] = flat[i]] *)
Definition unscatter (flat : bytes) (inverse : list nat) (n : nat)
  : result bytes :=
  for_each (seq 0 n)
    (fun i unshuffled =>
       v ← getitem flat i;
       d ← getitem inverse i;
       bytearray_setitem unshuffled d v)
    (replicate n 0).

(** ** The interpreter state and the [Py] monad *)

Section Interpreter.

Context {R : PyRandom}.

(** The state a call can observe or change: the generator objects of the
    [random] module (the hidden module-level instance lives at
    [module_rng]), the image files and the standard output. *)
Record interp : Type := Interp {
  generators : gmap nat rng_state;
  files : gmap string Image;
  stdout : list string
}.

Definition Py (A : Type) : Type := interp -> result A * interp.

Definition py_ret {A} (a : A) : Py A := fun st => (Ok a, st).

Definition py_bind {A B} (m : Py A) (k : A -> Py B) : Py B := fun st =>
  match m st with
  | (Ok a, st') => k a st'
  | (Raise e, st') => (Raise e, st')
  end.

Definition lift {A} (r : result A) : Py A := fun st => (r, st).

Notation "x <- m ;; k" := (py_bind m (fun x => k))
  (at level 20, m at level 99, k at level 200, only parsing).

Definition set_generators (g : gmap nat rng_state) (st : interp) : interp :=
  Interp g (files st) (stdout st).

Definition module_rng : nat := 0%nat.

(** [random.seed(a)]: reseeds the module-level generator. *)
Definition random_seed (a : Z) : Py unit := fun st =>
  (Ok tt, set_generators (<[module_rng := seed_state a]> (generators st)) st).

(** [random.Random(seed)]: a new generator object. *)
Definition Random_new (seed : Z) : Py nat := fun st =>
  let r := fresh (dom (generators st)) in
  (Ok r, set_generators (<[r := seed_state seed]> (generators st)) st).

(** [rng._randbelow(n)] on the generator object [r]. *)
Definition Random_randbelow (r n : nat) : Py nat := fun st =>
  match generators st !! r with
  | Some s =>
      (Ok (fst (randbelow s n)),
       set_generators (<[r := snd (randbelow s n)]> (generators st)) st)
  | None => (Raise SystemError, st)
  end.

(** The generator object [r] is reclaimed when its last reference goes. *)
Definition Random_del (r : nat) : Py unit := fun st =>
  (Ok tt, set_generators (delete r (generators st)) st).

(** [rng.shuffle(x)]:
    [for i in reversed(range(1, len(x))): j = randbelow(i + 1); swap]. *)
Fixpoint shuffle_loop {A} (r : nat) (todo : list nat) (x : list A)
  : Py (list A) :=
  match todo with
  | [] => py_ret x
  | i :: todo' =>
      j <- Random_randbelow r (i + 1) ;;
      x' <- lift (swap_items x i j) ;;
      shuffle_loop r todo' x'
  end.

Definition Random_shuffle {A} (r : nat) (x : list A) : Py (list A) :=
  shuffle_loop r (reverse (seq 1 (length x - 1))) x.

(** ** _shuffle_indices *)

Definition _shuffle_indices (n : nat) (seed : Z) : Py (list nat) :=
  rng <- Random_new seed ;;
  indices <- Random_shuffle rng (seq 0 n) ;;
  _ <- Random_del rng ;;
  py_ret indices.

(** ** The transform pipelines *)

(** [encrypt_image], from the opened image to the image that is saved. *)
Definition encode (img : Image) (password : string) (shuffle : bool)
  : Py Image :=
  let width := img_width img in
  let height := img_height img in
  let pixels := img_data img in
  let channels := 4%nat in
  flat <- lift (_pixels_to_bytes pixels channels) ;;
  let n := length flat in
  let key_bytes := _key_stream password n in
  flat <- lift (xor_key flat key_bytes n) ;;
  flat <- (if shuffle then
             let seed := password_seed password in
             indices <- _shuffle_indices n seed ;;
             lift (scatter flat indices n)
           else py_ret flat) ;;
  pixels <- lift (_bytes_to_pixels flat channels) ;;
  lift (Image_new_putdata width height pixels).

(** [decrypt_image], from the opened image to the image that is saved. *)
Definition decode (img : Image) (password : string) (was_shuffled : bool)
  : Py Image :=
  let width := img_width img in
  let height := img_height img in
  let pixels := img_data img in
  let channels := 4%nat in
  flat <- lift (_pixels_to_bytes pixels channels) ;;
  let n := length flat in
  flat <- (if was_shuffled then
             let seed := password_seed password in
             indices <- _shuffle_indices n seed ;;
             inverse <- lift (_unshuffle_indices indices) ;;
             lift (unscatter flat inverse n)
           else py_ret flat) ;;
  let key_bytes := _key_stream password n in
  flat <- lift (xor_key flat key_bytes n) ;;
  pixels <- lift (_bytes_to_pixels flat channels) ;;
  lift (Image_new_putdata width height pixels).

(** ** encrypt_image and decrypt_image *)

(** [Path(p).is_file()] and [Image.open(p).convert("RGBA")]. *)
Definition Image_open (path : string) : Py Image := fun st =>
  match files st !! path with
  | Some img => (Ok img, st)
  | None => (Raise FileNotFoundError, st)
  end.

(** [img.save(path, "PNG")]; a path is a string in the normal form of
    [pathlib], and the directories of the path are not modelled. *)
Definition Image_save (path : string) (img : Image) : Py unit := fun st =>
  (Ok tt, Interp (generators st) (<[path := img]> (files st)) (stdout st)).

Definition print (line : string) : Py unit := fun st =>
  (Ok tt, Interp (generators st) (files st) (stdout st ++ [line])).

Definition encrypt_image (input_path output_path password : string)
  (shuffle : bool) : Py unit :=
  img <- Image_open input_path ;;
  out_img <- encode img password shuffle ;;
  _ <- Image_save output_path out_img ;;
  print (String.append "Encrypted image saved to: " output_path).

Definition decrypt_image (input_path output_path password : string)
  (was_shuffled : bool) : Py unit :=
  img <- Image_open input_path ;;
  out_img <- decode img password was_shuffled ;;
  _ <- Image_save output_path out_img ;;
  print (String.append "Decrypted image saved to: " output_path).

End Interpreter.

Notation "x <- m ;; k" := (py_bind m (fun x => k))
  (at level 20, m at level 99, k at level 200, only parsing).

(** ** Sample inputs *)

(** An interpreter that has just imported [random]: the module-level
    generator exists, there are no files and no output. *)
Definition initial_interp {R : PyRandom} : interp :=
  Interp {[ module_rng := seed_state 0 ]} ∅ [].

(** The 2 x 2 image of the specification's concrete scenario. *)
Definition sample_image : Image :=
  mk_image 2 2
    [[0; 0; 0; 255]; [10; 20; 30; 255]; [255; 255; 255; 0]; [1; 2; 3; 4]].


(** An interpreter whose file system holds the sample image. *)
Definition sample_interp {R : PyRandom} : interp :=
  Interp {[ module_rng := seed_state 0 ]} {[ "in.png" := sample_image ]} [].

(** ** Denotations used in the proofs *)

(** A sequence of stores [d[j] = v], applied to [init] from left to
    right. *)
Definition apply_writes {V} (init : list V) (ws : list (nat * V)) : list V :=
  fold_left (fun d w => <[w.1 := w.2]> d) ws init.

(** The loop of [rng.shuffle] on a generator state passed by value. *)
Fixpoint shuffle_steps {R : PyRandom} {A} (s : rng_state) (todo : list nat)
  (x : list A) : result (list A) * rng_state :=
  match todo with
  | [] => (Ok x, s)
  | i :: todo' =>
      match swap_items x i (fst (randbelow s (i + 1))) with
      | Ok x' => shuffle_steps (snd (randbelow s (i + 1))) todo' x'
      | Raise e => (Raise e, snd (randbelow s (i + 1)))
      end
  end.

(** The buffer cut into rows of [c] items. *)
Definition rows (c : nat) (data : bytes) : list (list Z) :=
  map (fun k => take c (drop (k * c) data)) (seq 0 ((length data + c - 1) / c)).

(** The bytes [_pixels_to_bytes] emits for one pixel tuple. *)
Definition pixel_bytes (channels : nat) (p : list Z) : bytes :=
  take channels p ++ replicate (channels - length p) 255.

(** ** main *)

(** The namespace that [parser.parse_args()] returns: the subcommand is
    required and is one of [encrypt] and [decrypt]; each has the two
    paths, the required password and the [--no-shuffle] flag. The parsing
    of the command line itself belongs to [argparse] and is not
    modelled. *)
Inductive command : Set :=
| Encrypt
| Decrypt.

Record Namespace : Type := mk_args {
  args_command : command;
  args_input : string;
  args_output : string;
  args_password : string;
  args_no_shuffle : bool
}.

(** How a run of [main] ends: it returns, it raises [SystemExit(code)],
    or an exception that it does not catch leaves it. *)
Inductive ending : Set :=
| Returned
| SystemExit (code : Z)
| Uncaught (e : exn).

Section Main.

Context {R : PyRandom}.

(** The body of the [try]. *)
Definition main_command (args : Namespace) : Py unit :=
  match args_command args with
  | Encrypt =>
      encrypt_image (args_input args) (args_output args)
        (args_password args) (negb (args_no_shuffle args))
  | Decrypt =>
      decrypt_image (args_input args) (args_output args)
        (args_password args) (negb (args_no_shuffle args))
  end.

(** [main], from the parsed namespace on. The only [FileNotFoundError]
    of the model is the one raised on the input path, whose text is
    ["Input image not found: "] followed by that path. *)
Definition main (args : Namespace) : interp -> ending * interp := fun st =>
  match main_command args st with
  | (Ok _, st') => (Returned, st')
  | (Raise FileNotFoundError, st') =>
      (SystemExit 1,
       snd (print (String.append "Error: "
                     (String.append "Input image not found: "
                        (args_input args))) st'))
  | (Raise e, st') => (Uncaught e, st')
  end.

(** ** The module-level functions of [random] *)

(** [random.randint(a, b)], that is [randrange(a, b + 1)], on the
    module-level generator: an empty range raises [ValueError]. *)
Definition random_randint (a b : Z) : Py Z :=
  if decide (0 < b + 1 - a)%Z then
    v <- Random_randbelow module_rng (Z.to_nat (b + 1 - a)) ;;
    py_ret (a + Z.of_nat v)%Z
  else lift (Raise ValueError).

End Main.

(** ** The first version of the script: [xor_pixels] and [swap_pixels] *)

(** The script works on images in mode RGB: tuples of three byte
    values. *)
Definition rgb_pixelb (p : list Z) : bool :=
  (length p =? 3)%nat && forallb is_byteb p.

Definition wf_rgb_imageb (img : Image) : bool :=
  (length (img_data img) =? img_width img * img_height img)%nat
  && forallb rgb_pixelb (img_data img).

Definition wf_rgb_image (img : Image) : Prop := wf_rgb_imageb img = true.

(** [pixels[x, y]] on the access object of [img.load()]: the pixel of
    column [x] and row [y]. *)
Definition pixel_get (img : Image) (x y : nat) : result (list Z) :=
  if decide (x < img_width img /\ y < img_height img)%nat then
    getitem (img_data img) (y * img_width img + x)
  else Raise IndexError.

(** [pixels[x, y] = p] for an RGB tuple [p] of byte values. What the
    codec makes of another value is not modelled: the model refuses
    it. *)
Definition pixel_set (img : Image) (x y : nat) (p : list Z) : result Image :=
  if decide (x < img_width img /\ y < img_height img)%nat then
    if rgb_pixelb p then
      data ← list_setitem (img_data img) (y * img_width img + x) p;
      Ok (mk_image (img_width img) (img_height img) data)
    else Raise TypeError
  else Raise IndexError.

(** The body of the two loops of [xor_pixels]. *)
Definition xor_pixel (key : Z) (x y : nat) (img : Image) : result Image :=
  p ← pixel_get img x y;
  match p with
  | [r; g; b] => pixel_set img x y [Z.lxor r key; Z.lxor g key; Z.lxor b key]
  | _ => Raise ValueError
  end.

Definition xor_pixels (img : Image) (key : Z) : result Image :=
  let width := img_width img in
  let height := img_height img in
  for_each (seq 0 width)
    (fun x img =>
       for_each (seq 0 height) (fun y img => xor_pixel key x y img) img)
    img.

Section FirstVersion.

Context {R : PyRandom}.

(** One round of the loop of [swap_pixels]. *)
Definition swap_round (width height : nat) (img : Image) : Py Image :=
  x1 <- random_randint 0 (Z.of_nat width - 1) ;;
  y1 <- random_randint 0 (Z.of_nat height - 1) ;;
  x2 <- random_randint 0 (Z.of_nat width - 1) ;;
  y2 <- random_randint 0 (Z.of_nat height - 1) ;;
  temp <- lift (pixel_get img (Z.to_nat x1) (Z.to_nat y1)) ;;
  other <- lift (pixel_get img (Z.to_nat x2) (Z.to_nat y2)) ;;
  img1 <- lift (pixel_set img (Z.to_nat x1) (Z.to_nat y1) other) ;;
  lift (pixel_set img1 (Z.to_nat x2) (Z.to_nat y2) temp).

Fixpoint swap_rounds (width height count : nat) (img : Image) : Py Image :=
  match count with
  | O => py_ret img
  | S count' =>
      img' <- swap_round width height img ;;
      swap_rounds width height count' img'
  end.

Definition swap_pixels (img : Image) (key : Z) : Py Image :=
  let width := img_width img in
  let height := img_height img in
  _ <- random_seed key ;;
  swap_rounds width height 10000 img.

End FirstVersion.

(** ** More sample inputs *)

Definition sample_rgb_image : Image :=
  mk_image 2 2 [[0; 0; 0]; [10; 20; 30]; [255; 255; 255]; [1; 2; 3]].

Definition sample_encrypt_args : Namespace :=
  mk_args Encrypt "in.png" "out.png" "test" false.


(** ** More denotations used in the proofs *)

(** The bytes of [x] moved along [p]: the byte at [i] goes to [p[i]]. *)
Definition moved (n : nat) (x : bytes) (p : list nat) : bytes :=
  apply_writes (replicate n 0)
    (map (fun w : nat * nat => (w.2, x !!! w.1)) (enumerate p)).

(** The bytes of [y] moved back along the inverse [q]. *)
Definition moved_back (n : nat) (y : bytes) (q : list nat) : bytes :=
  apply_writes (replicate n 0) (map (fun i => (q !!! i, y !!! i)) (seq 0 n)).

(** The module-level generator passed by value: the state and error
    monad of the computations that use no other part of the interpreter
    state, and [swap_pixels] in it. *)
Definition Gen {R : PyRandom} (A : Type) : Type :=
  rng_state -> result A * rng_state.

Definition gen_ret {R : PyRandom} {A} (a : A) : Gen A := fun s => (Ok a, s).

Definition gen_bind {R : PyRandom} {A B} (m : Gen A) (k : A -> Gen B)
  : Gen B := fun s =>
  match m s with
  | (Ok a, s') => k a s'
  | (Raise e, s') => (Raise e, s')
  end.

Definition gen_lift {R : PyRandom} {A} (r : result A) : Gen A :=
  fun s => (r, s).

Definition randint_gen {R : PyRandom} (a b : Z) : Gen Z := fun s =>
  if decide (0 < b + 1 - a)%Z then
    (Ok (a + Z.of_nat (fst (randbelow s (Z.to_nat (b + 1 - a)))))%Z,
     snd (randbelow s (Z.to_nat (b + 1 - a))))
  else (Raise ValueError, s).

Definition swap_round_gen {R : PyRandom} (width height : nat) (img : Image)
  : Gen Image :=
  gen_bind (randint_gen 0 (Z.of_nat width - 1)) (fun x1 =>
  gen_bind (randint_gen 0 (Z.of_nat height - 1)) (fun y1 =>
  gen_bind (randint_gen 0 (Z.of_nat width - 1)) (fun x2 =>
  gen_bind (randint_gen 0 (Z.of_nat height - 1)) (fun y2 =>
  gen_bind (gen_lift (pixel_get img (Z.to_nat x1) (Z.to_nat y1))) (fun temp =>
  gen_bind (gen_lift (pixel_get img (Z.to_nat x2) (Z.to_nat y2))) (fun other =>
  gen_bind (gen_lift (pixel_set img (Z.to_nat x1) (Z.to_nat y1) other))
    (fun img1 =>
  gen_lift (pixel_set img1 (Z.to_nat x2) (Z.to_nat y2) temp)))))))).

Fixpoint swap_rounds_gen {R : PyRandom} (width height count : nat)
  (img : Image) : Gen Image :=
  match count with
  | O => gen_ret img
  | S count' =>
      gen_bind (swap_round_gen width height img)
        (swap_rounds_gen width height count')
  end.

(** [simulates m g]: the computation [m] uses the interpreter state only
    through the module-level generator, on which it runs [g]. *)
Definition simulates {R : PyRandom} {A} (m : Py A) (g : Gen A) : Prop :=
  forall (st : interp) (s : rng_state),
    generators st !! module_rng = Some s ->
    m st
    = (fst (g s),
       set_generators (<[module_rng := snd (g s)]> (generators st)) st).

(** What [xor_pixels] makes of one pixel tuple. *)
Definition xor_tuple (key : Z) (p : list Z) : list Z :=
  map (fun v => Z.lxor v key) p.

(** The position of the pixel of column [pr.1] and row [pr.2] in the
    data of an image of width [w]. *)
Definition pixel_index (w : nat) (pr : nat * nat) : nat := pr.2 * w + pr.1.

(** * Properties *)

(** ** Bytes *)

Lemma is_byteb_true (b : Z) : is_byteb b = true <-> is_byte b.
Proof. unfold is_byteb, is_byte. lia. Qed.

Lemma is_byte_lxor (a b : Z) : is_byte a -> is_byte b -> is_byte (Z.lxor a b).
Proof.
  unfold is_byte. intros Ha Hb.
  assert (Hnn : 0 <= Z.lxor a b) by (apply Z.lxor_nonneg; lia).
  split; [exact Hnn |].
  destruct (Z.eq_dec (Z.lxor a b) 0) as [-> | Hne]; [lia |].
  apply (Z.log2_lt_pow2 _ 8); [lia |].
  eapply Z.le_lt_trans; [apply Z.log2_lxor; lia |].
  apply Z.max_lub_lt.
  - destruct (Z.eq_dec a 0) as [-> | ?]; [cbn; lia |].
    apply Z.log2_lt_pow2; lia.
  - destruct (Z.eq_dec b 0) as [-> | ?]; [cbn; lia |].
    apply Z.log2_lt_pow2; lia.
Qed.

Lemma lxor_cancel (a k : Z) : Z.lxor (Z.lxor a k) k = a.
Proof. now rewrite Z.lxor_assoc, Z.lxor_nilpotent, Z.lxor_0_r. Qed.

(** ** SHA-256: test vectors and the shape of a digest *)

Example sha256_abc :
  SHA256.digest [97; 98; 99] =
  [186; 120; 22; 191; 143; 1; 207; 234; 65; 65; 64; 222; 93; 174; 34; 35;
   176; 3; 97; 163; 150; 23; 122; 156; 180; 16; 255; 97; 242; 0; 21; 173].
Proof. vm_compute. reflexivity. Qed.

Example sha256_of_empty :
  SHA256.digest [] =
  [227; 176; 196; 66; 152; 252; 28; 20; 154; 251; 244; 200; 153; 111; 185;
   36; 39; 174; 65; 228; 100; 155; 147; 76; 164; 149; 153; 27; 120; 82;
   184; 85].
Proof. vm_compute. reflexivity. Qed.

Example sha256_two_blocks :
  SHA256.digest (repeat 97 70) =
  [107; 213; 229; 3; 72; 85; 161; 18; 65; 240; 222; 232; 252; 114; 133; 15;
   253; 153; 85; 178; 131; 71; 168; 100; 40; 181; 250; 25; 17; 159; 106;
   208].
Proof. vm_compute. reflexivity. Qed.

(** Values computed by the source on the same inputs. *)
Example key_stream_test_40 :
  _key_stream "test" 40 =
  [149; 77; 90; 73; 253; 112; 217; 184; 188; 219; 53; 210; 82; 38; 120; 41;
   149; 127; 126; 247; 250; 108; 116; 248; 132; 25; 189; 197; 232; 34; 9;
   244; 0; 50; 6; 48; 45; 162; 147; 70].
Proof. vm_compute. reflexivity. Qed.

Example password_seed_test : password_seed "test" = 11495104353665842533.
Proof. vm_compute. reflexivity. Qed.

Example utf8_e_acute : encode_utf8 (String (ascii_of_nat 233) "") = [195; 169].
Proof. reflexivity. Qed.

Example encode_sample_xor_only :
  fst (encode sample_image "test" false initial_interp)
  = Ok (mk_image 2 2
          [[149; 77; 90; 182]; [247; 100; 199; 71]; [67; 36; 202; 210];
           [83; 36; 123; 45]]).
Proof. vm_compute. reflexivity. Qed.

Lemma digest_length (msg : bytes) : length (SHA256.digest msg) = 32%nat.
Proof.
  unfold SHA256.digest, SHA256.regs_bytes.
  rewrite !List.length_app. reflexivity.
Qed.

Lemma be_bytes_all_bytes (n : nat) (v : Z) : all_bytes (SHA256.be_bytes n v).
Proof.
  unfold all_bytes, SHA256.be_bytes. apply Forall_forall.
  intros b Hb. apply list_elem_of_In, in_map_iff in Hb.
  destruct Hb as (i & <- & _). unfold is_byte.
  apply Z.mod_pos_bound. lia.
Qed.

Lemma digest_all_bytes (msg : bytes) : all_bytes (SHA256.digest msg).
Proof.
  unfold SHA256.digest, SHA256.regs_bytes, all_bytes.
  repeat (apply Forall_app; split); apply be_bytes_all_bytes.
Qed.

(** ** The key stream *)

Lemma hash_chain_S (h : bytes) (m : nat) :
  hash_chain h (S m) = hash_chain h m ++ chain_block h m.
Proof.
  unfold hash_chain. rewrite seq_S, flat_map_app. cbn.
  now rewrite app_nil_r.
Qed.

Lemma chain_block_length (h : bytes) (k : nat) :
  length (chain_block h k) = 32%nat.
Proof. destruct k; apply digest_length. Qed.

Lemma hash_chain_length (h : bytes) (m : nat) :
  length (hash_chain h m) = (32 * m)%nat.
Proof.
  induction m as [| m IH]; [reflexivity |].
  rewrite hash_chain_S, List.length_app, IH, chain_block_length. lia.
Qed.

Lemma hash_chain_all_bytes (h : bytes) (m : nat) :
  all_bytes (hash_chain h m).
Proof.
  induction m as [| m IH]; [constructor |].
  rewrite hash_chain_S. apply Forall_app. split; [exact IH |].
  destruct m; apply digest_all_bytes.
Qed.

(** One iteration of the loop appends the next block of the chain. *)
Lemma key_stream_next_block (h : bytes) (m : nat) :
  hash_chain h m ++
    SHA256.digest
      (if decide (32 <= length (hash_chain h m))%nat
       then h ++ drop (length (hash_chain h m) - 32) (hash_chain h m)
       else h)
  = hash_chain h (S m).
Proof.
  rewrite hash_chain_S. f_equal.
  destruct m as [| m].
  - reflexivity.
  - rewrite hash_chain_length.
    destruct (decide (32 <= 32 * S m)%nat) as [_ | Hn]; [| lia].
    rewrite hash_chain_S.
    replace (32 * S m - 32)%nat with (length (hash_chain h m))
      by (rewrite hash_chain_length; lia).
    now rewrite drop_app_length.
Qed.

(** The loop, started on [m] blocks of the chain, stops on the chain of
    the first length that reaches [len]. *)
Lemma key_stream_loop_chain (h : bytes) (len : nat) :
  forall d m, (d = (len + 31) / 32 - m)%nat ->
    key_stream_loop h len (hash_chain h m)
    = hash_chain h (Nat.max m ((len + 31) / 32)).
Proof.
  induction d as [| d IH]; intros m Hd.
  - assert (Hlen : (len <= 32 * m)%nat).
    { pose proof (Nat.div_mod_eq (len + 31) 32).
      pose proof (Nat.mod_upper_bound (len + 31) 32). lia. }
    rewrite key_stream_loop_equation_1.
    destruct (decide (length (hash_chain h m) < len)%nat) as [Hlt | Hge].
    { exfalso. pose proof (hash_chain_length h m). lia. }
    cbn -[Nat.div]. f_equal.
    pose proof (Nat.div_mod_eq (len + 31) 32).
    pose proof (Nat.mod_upper_bound (len + 31) 32). lia.
  - assert (Hlt : (32 * m < len)%nat).
    { pose proof (Nat.div_mod_eq (len + 31) 32).
      pose proof (Nat.mod_upper_bound (len + 31) 32). lia. }
    rewrite key_stream_loop_equation_1.
    destruct (decide (length (hash_chain h m) < len)%nat) as [Hlt' | Hn].
    2: { exfalso. pose proof (hash_chain_length h m). lia. }
    cbn -[Nat.div]. rewrite key_stream_next_block.
    rewrite IH by lia. f_equal. lia.
Qed.

Lemma hash_chain_prefix (h : bytes) (m k : nat) :
  hash_chain h (m + k) = hash_chain h m ++ flat_map (chain_block h) (seq m k).
Proof. unfold hash_chain. now rewrite seq_app, flat_map_app. Qed.

Lemma key_stream_loop_from_empty (h : bytes) (len : nat) :
  key_stream_loop h len [] = hash_chain h ((len + 31) / 32).
Proof.
  change (@nil Z) with (hash_chain h 0).
  now rewrite (key_stream_loop_chain h len _ 0 eq_refl), Nat.max_0_l.
Qed.

Lemma blocks_cover (len : nat) : (len <= 32 * ((len + 31) / 32))%nat.
Proof.
  pose proof (Nat.div_mod_eq (len + 31) 32).
  pose proof (Nat.mod_upper_bound (len + 31) 32). lia.
Qed.

Lemma blocks_least (len m : nat) :
  (len <= 32 * m)%nat -> ((len + 31) / 32 <= m)%nat.
Proof.
  intros Hm. apply Nat.lt_succ_r, Nat.Div0.div_lt_upper_bound. lia.
Qed.


(** ** Sequences and loops *)

Local Open Scope nat_scope.

Lemma bind_Ok {A B} (a : A) (k : A -> result B) : Ok a ≫= k = k a.
Proof. reflexivity. Qed.

Lemma bind_Raise {A B} (e : exn) (k : A -> result B) :
  Raise e ≫= k = Raise e.
Proof. reflexivity. Qed.

(** Runs the error monad on the results known so far. *)
Ltac run_result := repeat (rewrite bind_Ok || rewrite bind_Raise).

Lemma getitem_Some {A} (l : list A) (i : nat) (x : A) :
  l !! i = Some x -> getitem l i = Ok x.
Proof. unfold getitem. now intros ->. Qed.

Lemma getitem_lt {A} `{!Inhabited A} (l : list A) (i : nat) :
  i < length l -> getitem l i = Ok (l !!! i).
Proof.
  intros Hi. apply getitem_Some. now apply list_lookup_lookup_total_lt.
Qed.

Lemma list_setitem_lt {A} (l : list A) (i : nat) (v : A) :
  i < length l -> list_setitem l i v = Ok (<[i := v]> l).
Proof. intros Hi. unfold list_setitem. now rewrite decide_True. Qed.

Lemma bytearray_setitem_lt (b : bytes) (i : nat) (v : Z) :
  i < length b -> is_byte v -> bytearray_setitem b i v = Ok (<[i := v]> b).
Proof.
  intros Hi Hv. unfold bytearray_setitem. rewrite decide_True by done.
  apply is_byteb_true in Hv. now rewrite Hv.
Qed.

Lemma bytearray_append_byte (b : bytes) (v : Z) :
  is_byte v -> bytearray_append b v = Ok (b ++ [v]).
Proof.
  intros Hv. unfold bytearray_append.
  apply is_byteb_true in Hv. now rewrite Hv.
Qed.

Lemma for_each_app {A S} (xs ys : list A) (body : A -> S -> result S) (s : S) :
  for_each (xs ++ ys) body s = for_each xs body s ≫= for_each ys body.
Proof.
  revert s. induction xs as [| x xs IH]; intros s; [reflexivity |].
  cbn. destruct (body x s) as [s' | e]; [apply IH | reflexivity].
Qed.

(** A loop whose body only appends a computed item. *)
Lemma for_each_append {A B} (f : A -> B) (xs : list A) (init : list B) :
  for_each xs (fun x acc => Ok (acc ++ [f x])) init = Ok (init ++ map f xs).
Proof.
  revert init. induction xs as [| x xs IH]; intros init; cbn.
  - now rewrite app_nil_r.
  - rewrite IH. now rewrite <- app_assoc.
Qed.

(** A loop whose body only stores into the accumulator. *)
Lemma for_each_writes {A V} (w : A -> nat * V) (n : nat) (xs : list A)
  (body : A -> list V -> result (list V)) (init : list V) :
  length init = n ->
  (forall x s, x ∈ xs -> length s = n ->
     body x s = Ok (<[(w x).1 := (w x).2]> s)) ->
  for_each xs body init = Ok (apply_writes init (map w xs)).
Proof.
  revert init. induction xs as [| x xs IH]; intros init Hlen Hbody.
  - reflexivity.
  - cbn. rewrite Hbody by (done || apply list_elem_of_here). cbn.
    apply IH.
    + now rewrite length_insert.
    + intros y s Hy Hs. apply Hbody; [now apply list_elem_of_further | done].
Qed.

Lemma apply_writes_length {V} (ws : list (nat * V)) (init : list V) :
  length (apply_writes init ws) = length init.
Proof.
  revert init. induction ws as [| w ws IH]; intros init; [reflexivity |].
  cbn. unfold apply_writes in IH. now rewrite IH, length_insert.
Qed.

Lemma apply_writes_untouched {V} (ws : list (nat * V)) (init : list V)
  (j : nat) :
  j ∉ ws.*1 -> apply_writes init ws !! j = init !! j.
Proof.
  revert init. induction ws as [| w ws IH]; intros init Hj; [reflexivity |].
  cbn in *. apply not_elem_of_cons in Hj as [Hne Hj].
  unfold apply_writes in IH. rewrite IH by done.
  now apply list_lookup_insert_ne.
Qed.

Lemma apply_writes_lookup {V} (ws : list (nat * V)) (init : list V)
  (j : nat) (v : V) :
  NoDup ws.*1 -> (j, v) ∈ ws -> j < length init ->
  apply_writes init ws !! j = Some v.
Proof.
  revert init. induction ws as [| w ws IH]; intros init Hnd Hin Hj.
  - now apply elem_of_nil in Hin.
  - cbn in Hnd. apply NoDup_cons in Hnd as [Hfresh Hnd].
    apply elem_of_cons in Hin as [<- | Hin].
    + change (apply_writes (<[j := v]> init) ws !! j = Some v).
      rewrite apply_writes_untouched by done.
      now apply list_lookup_insert_eq.
    + change (apply_writes (<[w.1 := w.2]> init) ws !! j = Some v).
      apply IH; [done | done | now rewrite length_insert].
Qed.

Lemma apply_writes_Forall {V} (P : V -> Prop) (ws : list (nat * V))
  (init : list V) :
  Forall P init -> Forall (fun w => P w.2) ws ->
  Forall P (apply_writes init ws).
Proof.
  revert init. induction ws as [| w ws IH]; intros init Hinit Hws.
  - exact Hinit.
  - apply Forall_cons in Hws as [Hw Hws].
    change (Forall P (apply_writes (<[w.1 := w.2]> init) ws)).
    apply IH; [now apply Forall_insert | done].
Qed.

Lemma elem_of_enumerate {A} (l : list A) (i : nat) (x : A) :
  (i, x) ∈ enumerate l <-> l !! i = Some x.
Proof.
  unfold enumerate. rewrite elem_of_lookup_imap. split.
  - intros (i' & x' & Heq & Hl). now inversion Heq; subst.
  - intros Hl. now exists i, x.
Qed.

Lemma enumerate_snd {A} (l : list A) : (enumerate l).*2 = l.
Proof.
  unfold enumerate. apply list_eq. intros i.
  rewrite list_lookup_fmap, list_lookup_imap.
  now destruct (l !! i).
Qed.

(** ** The pixel codec *)

Lemma pixel_bytes_S (k : nat) (p : list Z) :
  pixel_bytes (S k) p
  = pixel_bytes k p ++ [if decide (k < length p) then p !!! k else 255%Z].
Proof.
  unfold pixel_bytes. destruct (decide (k < length p)) as [Hk | Hk].
  - rewrite (take_S_r p k (p !!! k))
      by now apply list_lookup_lookup_total_lt.
    replace (S k - length p) with 0 by lia.
    replace (k - length p) with 0 by lia.
    cbn. now rewrite !app_nil_r.
  - rewrite !take_ge by lia.
    replace (S k - length p) with (S (k - length p)) by lia.
    now rewrite replicate_S_end, app_assoc.
Qed.

Lemma pixel_loop (p : list Z) (channels : nat) (out : bytes) :
  all_bytes (take channels p) ->
  for_each (seq 0 channels)
    (fun c out =>
       v ← (if decide (c < length p) then getitem p c else Ok 255%Z);
       bytearray_append out v)
    out
  = Ok (out ++ pixel_bytes channels p).
Proof.
  induction channels as [| k IH]; intros Hb.
  - cbn. unfold pixel_bytes. cbn. now rewrite app_nil_r.
  - rewrite seq_S, for_each_app, IH.
    2: { replace (take k p) with (take k (take (S k) p))
           by (rewrite take_take; f_equal; lia).
         now apply Forall_take. }
    cbn. rewrite pixel_bytes_S.
    destruct (decide (k < length p)) as [Hk | Hk].
    + cbn. rewrite getitem_lt by done. run_result.
      rewrite bytearray_append_byte; [now rewrite app_assoc |].
      eapply (Forall_lookup_1 _ _ k); [exact Hb |].
      rewrite lookup_take_lt by lia.
      now apply list_lookup_lookup_total_lt.
    + cbn. now rewrite app_assoc.
Qed.

Lemma pixels_to_bytes_from (channels : nat) (pixels : list (list Z))
  (out : bytes) :
  Forall (fun p => all_bytes (take channels p)) pixels ->
  for_each pixels
    (fun p out =>
       for_each (seq 0 channels)
         (fun c out =>
            v ← (if decide (c < length p) then getitem p c else Ok 255%Z);
            bytearray_append out v)
         out)
    out
  = Ok (out ++ flat_map (pixel_bytes channels) pixels).
Proof.
  revert out. induction pixels as [| p pixels IH]; intros out Hb.
  - cbn. now rewrite app_nil_r.
  - apply Forall_cons in Hb as [Hp Hb].
    cbn. rewrite pixel_loop by done. cbn.
    rewrite IH by done. now rewrite <- app_assoc.
Qed.

Lemma pixels_to_bytes_ok (channels : nat) (pixels : list (list Z)) :
  Forall (fun p => all_bytes (take channels p)) pixels ->
  _pixels_to_bytes pixels channels
  = Ok (flat_map (pixel_bytes channels) pixels).
Proof. intros Hb. unfold _pixels_to_bytes. now rewrite pixels_to_bytes_from. Qed.

(** C9. For every list of pixel tuples whose emitted components are byte
    values, [_pixels_to_bytes] emits for each tuple its first [channels]
    components followed by one byte 255 for each missing trailing
    channel: a tuple shorter than [channels] is padded with 255, a tuple
    with at least [channels] components is cut to the first [channels]. *)
Theorem pixels_to_bytes_padding (pixels : list (list Z)) (channels : nat) :
  Forall (fun p => all_bytes (take channels p)) pixels ->
  _pixels_to_bytes pixels channels
  = Ok (flat_map (pixel_bytes channels) pixels)
  /\ (forall p, length p < channels ->
        pixel_bytes channels p
        = p ++ replicate (channels - length p) 255%Z)
  /\ (forall p, channels <= length p ->
        pixel_bytes channels p = take channels p).
Proof.
  intros Hb. split; [now apply pixels_to_bytes_ok |]. split.
  - intros p Hp. unfold pixel_bytes. now rewrite take_ge by lia.
  - intros p Hp. unfold pixel_bytes.
    replace (channels - length p) with 0 by lia. cbn. now rewrite app_nil_r.
Qed.

Lemma pixels_to_bytes_padding_witness :
  Forall (fun p => all_bytes (take 4 p)) [[10; 20; 30]; [1; 2; 3; 4; 5]]%Z
  /\ _pixels_to_bytes [[10; 20; 30]; [1; 2; 3; 4; 5]]%Z 4
     = Ok [10; 20; 30; 255; 1; 2; 3; 4]%Z.
Proof.
  assert (Hb : Forall (fun p => all_bytes (take 4 p))
                 [[10; 20; 30]; [1; 2; 3; 4; 5]]%Z).
  { repeat constructor; unfold is_byte; lia. }
  split; [exact Hb |].
  exact (proj1 (pixels_to_bytes_padding _ 4 Hb)).
Defined.

Lemma bytes_to_pixels_rows (data : bytes) (channels : nat) :
  channels <> 0 -> _bytes_to_pixels data channels = Ok (rows channels data).
Proof.
  intros Hc. unfold _bytes_to_pixels, range_step, rows.
  rewrite decide_False by done.
  rewrite (for_each_append (fun i => take channels (drop i data))).
  now rewrite map_map.
Qed.

Lemma rows_count_exact (c m : nat) : c <> 0 -> (c * m + c - 1) / c = m.
Proof.
  intros Hc. symmetry. apply (Nat.div_unique _ _ _ (c - 1)); lia.
Qed.

Lemma rows_count_ragged (c len : nat) :
  c <> 0 -> len mod c <> 0 -> (len + c - 1) / c = S (len / c).
Proof.
  intros Hc Hr. pose proof (Nat.div_mod_eq len c) as Hd.
  pose proof (Nat.mod_upper_bound len c Hc) as Hu.
  symmetry. apply (Nat.div_unique _ _ _ (len mod c - 1)); lia.
Qed.

(** Cutting a buffer of [c * m] bytes gives [m] rows of [c] bytes that
    concatenate to the buffer. *)
Lemma concat_rows (c m : nat) (data : bytes) :
  c <> 0 -> length data = c * m ->
  rows c data = map (fun k => take c (drop (k * c) data)) (seq 0 m)
  /\ concat (rows c data) = data
  /\ Forall (fun p => length p = c) (rows c data).
Proof.
  intros Hc Hlen.
  assert (Hrows : rows c data
                  = map (fun k => take c (drop (k * c) data)) (seq 0 m)).
  { unfold rows. now rewrite Hlen, rows_count_exact. }
  split; [exact Hrows |]. rewrite Hrows. clear Hrows.
  revert data Hlen. induction m as [| m IH]; intros data Hlen.
  - destruct data; [| cbn in Hlen; lia]. split; [reflexivity | constructor].
  - rewrite <- cons_seq, <- fmap_S_seq.
    change (map ?f (0 :: ?l)) with (f 0 :: map f l).
    change (map ?f (S <$> ?l)) with (map f (map S l)).
    rewrite map_map. cbn [Nat.mul drop].
    assert (Hext : map (fun k => take c (drop (c + k * c) data)) (seq 0 m)
                   = map (fun k => take c (drop (k * c) (drop c data)))
                       (seq 0 m)).
    { apply map_ext. intros k. now rewrite drop_drop. }
    rewrite Hext, drop_0. clear Hext.
    destruct (IH (drop c data)) as [Hcat Hall].
    { rewrite length_drop. lia. }
    split.
    + cbn [concat]. rewrite Hcat. apply take_drop.
    + constructor; [| exact Hall]. rewrite length_take. lia.
Qed.

(** Cutting the concatenation of rows of [c] items gives the rows back. *)
Lemma rows_concat (c : nat) (pixels : list (list Z)) :
  c <> 0 -> Forall (fun p => length p = c) pixels ->
  rows c (concat pixels) = pixels.
Proof.
  intros Hc Hall.
  assert (Hlen : length (concat pixels) = c * length pixels).
  { induction Hall as [| p ps Hp _ IH]; [cbn; lia |].
    cbn. rewrite List.length_app, IH. cbn. lia. }
  destruct (concat_rows c (length pixels) (concat pixels) Hc Hlen)
    as (Hrows & _ & _).
  rewrite Hrows. clear Hrows Hlen.
  induction Hall as [| p ps Hp Hall IH]; [reflexivity |].
  cbn [length]. rewrite <- cons_seq, <- fmap_S_seq.
  change (map ?f (0 :: ?l)) with (f 0 :: map f l).
  change (map ?f (S <$> ?l)) with (map f (map S l)).
  rewrite map_map. cbn [Nat.mul concat]. rewrite drop_0. f_equal.
  - rewrite take_app_length'; [reflexivity | done].
  - rewrite <- IH at 2. apply map_ext. intros k. f_equal.
    rewrite <- Hp at 1.
    now rewrite drop_app_add.
Qed.

Lemma concat_length_rows (c : nat) (pixels : list (list Z)) :
  Forall (fun p => length p = c) pixels ->
  length (concat pixels) = c * length pixels.
Proof.
  intros Hall. induction Hall as [| p ps Hp _ IH]; [cbn; lia |].
  cbn. rewrite List.length_app, IH. cbn. lia.
Qed.

(** C6 (as the code has it). [_bytes_to_pixels] has no check on the
    length of the buffer: for a buffer whose length is not a multiple of
    the channel count 4 it raises nothing and returns one tuple per
    started group of four bytes, the last tuple holding only the
    [length mod 4] remaining bytes. *)
Theorem bytes_to_pixels_ragged (data : bytes) :
  length data mod 4 <> 0 ->
  exists pixels tail,
    _bytes_to_pixels data 4 = Ok pixels
    /\ length pixels = S (length data / 4)
    /\ last pixels = Some tail
    /\ tail = drop (4 * (length data / 4)) data
    /\ length tail = length data mod 4.
Proof.
  intros Hr. exists (rows 4 data), (drop (4 * (length data / 4)) data).
  split; [now apply bytes_to_pixels_rows |].
  unfold rows. rewrite rows_count_ragged by done.
  pose proof (Nat.div_mod_eq (length data) 4) as Hd.
  pose proof (Nat.mod_upper_bound (length data) 4) as Hu.
  split; [| split; [| split]].
  - now rewrite length_map, length_seq.
  - rewrite seq_S, map_app. cbn [map]. rewrite last_snoc. cbn [Nat.add]. f_equal.
    rewrite take_ge; [f_equal; lia |].
    rewrite length_drop. lia.
  - reflexivity.
  - rewrite length_drop. lia.
Qed.

Lemma bytes_to_pixels_ragged_witness :
  length [1; 2; 3; 4; 5]%Z mod 4 <> 0
  /\ exists pixels tail,
       _bytes_to_pixels [1; 2; 3; 4; 5]%Z 4 = Ok pixels
       /\ length pixels = S (length [1; 2; 3; 4; 5]%Z / 4)
       /\ last pixels = Some tail
       /\ tail = drop (4 * (length [1; 2; 3; 4; 5]%Z / 4)) [1; 2; 3; 4; 5]%Z
       /\ length tail = length [1; 2; 3; 4; 5]%Z mod 4.
Proof.
  assert (Hr : length [1; 2; 3; 4; 5]%Z mod 4 <> 0) by (cbn; lia).
  split; [exact Hr |].
  exact (bytes_to_pixels_ragged [1; 2; 3; 4; 5]%Z Hr).
Defined.

(** C6 (counterexample). A buffer of five bytes, whose length is not
    divisible by 4, is unflattened without any error: the claim that the
    operation signals a MalformedBuffer error fails on it. *)
Lemma bytes_to_pixels_no_malformed_error :
  length [1; 2; 3; 4; 5]%Z mod 4 <> 0
  /\ _bytes_to_pixels [1; 2; 3; 4; 5]%Z 4 = Ok [[1; 2; 3; 4]; [5]]%Z
  /\ ~ (forall data : bytes, length data mod 4 <> 0 ->
          exists e, _bytes_to_pixels data 4 = Raise e).
Proof.
  split; [cbn; lia |]. split; [reflexivity |].
  intros Hclaim.
  destruct (Hclaim [1; 2; 3; 4; 5]%Z) as [e He]; [cbn; lia |].
  discriminate He.
Qed.

(** ** The XOR pass *)

Lemma xor_key_from (key_bytes : bytes) :
  forall (k a : nat) (pre xs : bytes),
    length pre = a -> length xs = k -> a + k <= length key_bytes ->
    all_bytes xs -> all_bytes key_bytes ->
    for_each (seq a k)
      (fun i flat =>
         x ← getitem flat i;
         y ← getitem key_bytes i;
         bytearray_setitem flat i (Z.lxor x y))
      (pre ++ xs)
    = Ok (pre ++ zip_with Z.lxor xs (drop a key_bytes)).
Proof.
  induction k as [| k IH]; intros a pre xs Hpre Hxs Hkey Hbx Hbk.
  - destruct xs; [| discriminate]. reflexivity.
  - destruct xs as [| x xs]; [discriminate |].
    apply Forall_cons in Hbx as [Hx Hbx].
    destruct (lookup_lt_is_Some_2 key_bytes a) as [y Hy]; [lia |].
    cbn [seq for_each].
    rewrite (getitem_Some (pre ++ x :: xs) a x)
      by now apply list_lookup_middle.
    run_result. rewrite (getitem_Some _ _ y Hy). run_result.
    rewrite bytearray_setitem_lt.
    2: { rewrite List.length_app. cbn. lia. }
    2: { apply is_byte_lxor; [exact Hx |].
         now apply (Forall_lookup_1 _ _ _ _ Hbk Hy). }
    run_result.
    rewrite insert_app_r_alt by lia.
    replace (a - length pre) with 0 by lia.
    change (<[0 := Z.lxor x y]> (x :: xs)) with (Z.lxor x y :: xs).
    rewrite (cons_middle _ pre xs), app_assoc.
    rewrite IH; [| rewrite List.length_app; cbn; lia | cbn in Hxs; lia
                 | lia | done | done].
    rewrite <- app_assoc. cbn. do 2 f_equal.
    rewrite (drop_S _ y a Hy). reflexivity.
Qed.

Lemma xor_key_ok (flat key_bytes : bytes) (n : nat) :
  length flat = n -> length key_bytes = n ->
  all_bytes flat -> all_bytes key_bytes ->
  xor_key flat key_bytes n = Ok (zip_with Z.lxor flat key_bytes).
Proof.
  intros Hf Hk Hbf Hbk. unfold xor_key.
  pose proof (xor_key_from key_bytes n 0 [] flat) as H.
  cbn [app] in H. rewrite H by (done || lia). now rewrite drop_0.
Qed.

Lemma zip_xor_length (xs ks : bytes) :
  length xs = length ks -> length (zip_with Z.lxor xs ks) = length xs.
Proof. intros H. rewrite length_zip_with. lia. Qed.

Lemma zip_xor_all_bytes (xs ks : bytes) :
  all_bytes xs -> all_bytes ks -> all_bytes (zip_with Z.lxor xs ks).
Proof.
  intros Hx. revert ks. induction Hx as [| x xs Hx _ IH]; intros ks Hk.
  - constructor.
  - destruct Hk as [| k ks Hk Hks]; [constructor |].
    cbn. constructor; [now apply is_byte_lxor | now apply IH].
Qed.

Lemma zip_xor_involutive (xs ks : bytes) :
  length xs = length ks ->
  zip_with Z.lxor (zip_with Z.lxor xs ks) ks = xs.
Proof.
  revert ks. induction xs as [| x xs IH]; intros [| k ks] Hlen;
    try discriminate; [reflexivity |].
  cbn. rewrite lxor_cancel. f_equal. apply IH. now inversion Hlen.
Qed.

(** ** Permutations of [0..n-1] and their inverse *)

Lemma perm_seq_lookup_lt (p : list nat) (n i j : nat) :
  p ≡ₚ seq 0 n -> p !! i = Some j -> j < n.
Proof.
  intros Hp Hi. apply list_elem_of_lookup_2 in Hi.
  rewrite Hp in Hi. apply elem_of_seq in Hi. lia.
Qed.

Lemma perm_seq_position (p : list nat) (n j : nat) :
  p ≡ₚ seq 0 n -> j < n -> exists i, p !! i = Some j.
Proof.
  intros Hp Hj. apply list_elem_of_lookup_1. rewrite Hp.
  apply elem_of_seq. lia.
Qed.

Lemma perm_seq_NoDup (p : list nat) (n : nat) : p ≡ₚ seq 0 n -> NoDup p.
Proof. intros Hp. rewrite Hp. apply NoDup_seq. Qed.

Lemma perm_seq_length (p : list nat) (n : nat) :
  p ≡ₚ seq 0 n -> length p = n.
Proof. intros Hp. now rewrite Hp, length_seq. Qed.

Lemma unshuffle_indices_writes (p : list nat) (n : nat) :
  p ≡ₚ seq 0 n ->
  _unshuffle_indices p
  = Ok (apply_writes (replicate n 0) (map (fun w => (w.2, w.1)) (enumerate p))).
Proof.
  intros Hp. unfold _unshuffle_indices.
  rewrite (perm_seq_length p n Hp).
  apply (for_each_writes (fun w : nat * nat => (w.2, w.1)) n).
  - apply length_replicate.
  - intros [i j] s Hin Hs. apply elem_of_enumerate in Hin.
    cbn. apply list_setitem_lt. rewrite Hs.
    now apply (perm_seq_lookup_lt p n i j).
Qed.

Lemma unshuffle_dests (p : list nat) :
  (map (fun w : nat * nat => (w.2, w.1)) (enumerate p)).*1 = p.
Proof.
  rewrite <- (enumerate_snd p) at 2.
  change (fmap fst (map ?f ?l)) with (map fst (map f l)).
  now rewrite map_map.
Qed.

Lemma unshuffle_indices_spec (p : list nat) (n : nat) :
  p ≡ₚ seq 0 n ->
  exists q,
    _unshuffle_indices p = Ok q
    /\ length q = n
    /\ (forall i, i < n -> exists k, q !! i = Some k /\ p !! k = Some i)
    /\ (forall i, i < n -> exists k, p !! i = Some k /\ q !! k = Some i).
Proof.
  intros Hp. eexists. split; [exact (unshuffle_indices_writes p n Hp) |].
  set (ws := map (fun w : nat * nat => (w.2, w.1)) (enumerate p)).
  assert (Hq : forall i k, p !! i = Some k ->
                 apply_writes (replicate n 0) ws !! k = Some i).
  { intros i k Hik. apply apply_writes_lookup.
    - unfold ws. rewrite unshuffle_dests. now apply (perm_seq_NoDup p n).
    - unfold ws. apply list_elem_of_In, in_map_iff. exists (i, k).
      split; [reflexivity |]. now apply list_elem_of_In, elem_of_enumerate.
    - rewrite length_replicate. now apply (perm_seq_lookup_lt p n i k). }
  split; [| split].
  - now rewrite apply_writes_length, length_replicate.
  - intros i Hi. destruct (perm_seq_position p n i Hp Hi) as [k Hk].
    exists k. split; [now apply Hq | exact Hk].
  - intros i Hi.
    destruct (lookup_lt_is_Some_2 p i) as [k Hk].
    { now rewrite (perm_seq_length p n Hp). }
    exists k. split; [exact Hk | now apply Hq].
Qed.

(** C4. For every list [p] that is a permutation of [0..n-1],
    [_unshuffle_indices p] returns a list [q] of length [n] that is the
    two-sided inverse of [p]: [p[q[i]] = i] and [q[p[i]] = i] for every
    index [i] below [n]. *)
Theorem unshuffle_indices_inverse (p : list nat) (n : nat) :
  p ≡ₚ seq 0 n ->
  exists q,
    _unshuffle_indices p = Ok q
    /\ length q = n
    /\ (forall i, i < n -> exists k, q !! i = Some k /\ p !! k = Some i)
    /\ (forall i, i < n -> exists k, p !! i = Some k /\ q !! k = Some i).
Proof. exact (unshuffle_indices_spec p n). Qed.

Lemma unshuffle_indices_inverse_witness :
  [2; 0; 3; 1] ≡ₚ seq 0 4
  /\ exists q,
       _unshuffle_indices [2; 0; 3; 1] = Ok q
       /\ length q = 4
       /\ (forall i, i < 4 ->
             exists k, q !! i = Some k /\ [2; 0; 3; 1] !! k = Some i)
       /\ (forall i, i < 4 ->
             exists k, [2; 0; 3; 1] !! i = Some k /\ q !! k = Some i).
Proof.
  assert (Hp : [2; 0; 3; 1] ≡ₚ seq 0 4).
  { cbn. apply (Permutation_sym (l := [0; 1; 2; 3])).
    apply (perm_trans (l' := [0; 2; 1; 3])).
    - apply perm_skip, perm_swap.
    - apply (perm_trans (l' := [2; 0; 1; 3])); [apply perm_swap |].
      do 2 apply perm_skip. apply perm_swap. }
  split; [exact Hp |].
  exact (unshuffle_indices_inverse [2; 0; 3; 1] 4 Hp).
Defined.

(** ** The shuffle *)

Lemma insert_Permutation {A} (l : list A) (i : nat) (x y : A) :
  l !! i = Some x -> <[i := y]> l ≡ₚ y :: delete i l.
Proof.
  intros Hi. apply lookup_lt_Some in Hi.
  rewrite insert_take_drop by done. rewrite delete_take_drop.
  symmetry. apply Permutation_middle.
Qed.

Lemma swap_Permutation {A} (x : list A) :
  forall (i j : nat) (a b : A),
    x !! j = Some a -> x !! i = Some b ->
    <[j := b]> (<[i := a]> x) ≡ₚ x.
Proof.
  induction x as [| h t IH]; intros i j a b Hj Hi; [discriminate |].
  destruct i as [| i], j as [| j]; cbn in *.
  - now inversion Hi; inversion Hj; subst.
  - inversion Hi; subst b.
    rewrite (insert_Permutation t j a h Hj).
    transitivity (h :: a :: delete j t); [apply Permutation_swap |].
    apply perm_skip. symmetry. now apply delete_Permutation.
  - inversion Hj; subst a.
    rewrite (insert_Permutation t i b h Hi).
    transitivity (h :: b :: delete i t); [apply Permutation_swap |].
    apply perm_skip. symmetry. now apply delete_Permutation.
  - apply perm_skip. now apply IH.
Qed.

Lemma swap_items_ok {A} (x : list A) (i j : nat) :
  i < length x -> j < length x ->
  exists x', swap_items x i j = Ok x' /\ x' ≡ₚ x.
Proof.
  intros Hi Hj.
  destruct (lookup_lt_is_Some_2 x i Hi) as [b Hb].
  destruct (lookup_lt_is_Some_2 x j Hj) as [a Ha].
  exists (<[j := b]> (<[i := a]> x)). split.
  - unfold swap_items.
    rewrite (getitem_Some x j a Ha). run_result.
    rewrite (getitem_Some x i b Hb). run_result.
    rewrite list_setitem_lt by done. run_result.
    apply list_setitem_lt. now rewrite length_insert.
  - now apply swap_Permutation.
Qed.

Section Shuffle.

Context {R : PyRandom}.

Lemma shuffle_steps_Permutation {A} (todo : list nat) :
  forall (s : rng_state) (x : list A),
    Forall (fun i => i < length x) todo ->
    exists x', fst (shuffle_steps s todo x) = Ok x' /\ x' ≡ₚ x.
Proof.
  induction todo as [| i todo IH]; intros s x Hb.
  - exists x. split; reflexivity.
  - apply Forall_cons in Hb as [Hi Hb]. cbn [shuffle_steps].
    pose proof (randbelow_lt s (i + 1)) as Hj.
    destruct (swap_items_ok x i (fst (randbelow s (i + 1))))
      as (x1 & -> & Hx1); [done | lia |].
    destruct (IH (snd (randbelow s (i + 1))) x1) as (x' & Hrun & Hx').
    { eapply Forall_impl; [exact Hb |]. cbn. intros k Hk.
      now rewrite (Permutation_length Hx1). }
    exists x'. split; [exact Hrun | now rewrite Hx'].
Qed.

Lemma set_generators_same (st : interp) :
  set_generators (generators st) st = st.
Proof. now destruct st. Qed.

Lemma set_generators_twice (g1 g2 : gmap nat rng_state) (st : interp) :
  set_generators g2 (set_generators g1 st) = set_generators g2 st.
Proof. reflexivity. Qed.

(** The loop on the generator object [r] runs [shuffle_steps] on the
    state of that object and touches nothing else. *)
Lemma shuffle_loop_steps {A} (r : nat) (todo : list nat) :
  forall (x : list A) (st : interp) (s : rng_state),
    generators st !! r = Some s ->
    shuffle_loop r todo x st
    = (fst (shuffle_steps s todo x),
       set_generators
         (<[r := snd (shuffle_steps s todo x)]> (generators st)) st).
Proof.
  induction todo as [| i todo IH]; intros x st s Hs.
  - cbn. unfold py_ret. rewrite insert_id by done.
    now rewrite set_generators_same.
  - cbn [shuffle_loop shuffle_steps]. unfold py_bind at 1.
    unfold Random_randbelow. rewrite Hs.
    unfold py_bind at 1. unfold lift at 1.
    destruct (swap_items x i (fst (randbelow s (i + 1)))) as [x1 | e].
    + rewrite (IH x1 _ (snd (randbelow s (i + 1)))).
      2: { cbn. apply lookup_insert_eq. }
      cbn [generators set_generators files stdout].
      now rewrite insert_insert_eq.
    + reflexivity.
Qed.

(** Running [_shuffle_indices] gives a permutation that depends on
    [(n, seed)] only, and gives the interpreter state back unchanged. *)
Lemma shuffle_indices_run (n : nat) (seed : Z) :
  exists l, l ≡ₚ seq 0 n
    /\ forall st : interp, _shuffle_indices n seed st = (Ok l, st).
Proof.
  destruct (shuffle_steps_Permutation (reverse (seq 1 (n - 1)))
              (seed_state seed) (seq 0 n)) as (l & Hl & Hperm).
  { apply Forall_forall. intros i Hi.
    apply elem_of_reverse, elem_of_seq in Hi. rewrite length_seq. lia. }
  exists l. split; [exact Hperm |].
  intros st. unfold _shuffle_indices, py_bind at 1, Random_new.
  unfold py_bind at 1, Random_shuffle. rewrite length_seq.
  rewrite (shuffle_loop_steps _ _ _ _ (seed_state seed)).
  2: { cbn. apply lookup_insert_eq. }
  rewrite Hl. unfold py_bind, Random_del, py_ret.
  cbn [generators set_generators files stdout].
  rewrite insert_insert_eq, delete_insert_id.
  - now rewrite !set_generators_twice, set_generators_same.
  - apply not_elem_of_dom, is_fresh.
Qed.

(** C3. For every [n] and every seed, [_shuffle_indices n seed] returns
    a list of length [n] that is a bijection on [0..n-1]: it has no
    duplicate, its members are exactly the integers below [n], and each
    of them occurs exactly once. *)
Theorem shuffle_indices_bijection (n : nat) (seed : Z) (st : interp) :
  exists l,
    _shuffle_indices n seed st = (Ok l, st)
    /\ length l = n
    /\ l ≡ₚ seq 0 n
    /\ NoDup l
    /\ (forall v, v ∈ l <-> v < n)
    /\ (forall v, v < n -> count_occ Nat.eq_dec l v = 1).
Proof.
  destruct (shuffle_indices_run n seed) as (l & Hperm & Hrun).
  exists l. split; [apply Hrun |]. split; [| split; [exact Hperm |]].
  - now apply perm_seq_length.
  - assert (Hnd : NoDup l) by now apply (perm_seq_NoDup l n).
    split; [exact Hnd |]. split.
    + intros v. rewrite Hperm, elem_of_seq. lia.
    + intros v Hv. apply NoDup_count_occ'; [now apply NoDup_ListNoDup |].
      apply list_elem_of_In. rewrite Hperm. apply elem_of_seq. lia.
Qed.

(** C7. [_shuffle_indices] is a function of [(n, seed)] alone: run in
    any two interpreter states it returns the same list, it leaves the
    state (the module-level generator included) as it found it, and a
    reseeding of the module-level generator or another call of
    [_shuffle_indices] before it changes nothing of its result.
    [_key_stream] has no access to the interpreter state at all, so the
    same holds for it. *)
Theorem generators_without_hidden_state (n n' : nat) (seed seed' a : Z)
  (key : string) (len : nat) (st1 st2 : interp) :
  fst (_shuffle_indices n seed st1) = fst (_shuffle_indices n seed st2)
  /\ snd (_shuffle_indices n seed st1) = st1
  /\ (_ <- random_seed a ;; _shuffle_indices n seed) st1
     = (fst (_shuffle_indices n seed st2), snd (random_seed a st1))
  /\ (_ <- _shuffle_indices n' seed' ;; _shuffle_indices n seed) st1
     = (fst (_shuffle_indices n seed st2), st1)
  /\ (_ <- random_seed a ;; py_ret (_key_stream key len)) st1
     = (Ok (_key_stream key len), snd (random_seed a st1))
  /\ (_ <- _shuffle_indices n' seed' ;; py_ret (_key_stream key len)) st1
     = (Ok (_key_stream key len), st1).
Proof.
  destruct (shuffle_indices_run n seed) as (l & _ & Hrun).
  destruct (shuffle_indices_run n' seed') as (l' & _ & Hrun').
  rewrite (Hrun st1), (Hrun st2).
  repeat split.
  - unfold py_bind. cbn [random_seed fst snd]. now rewrite Hrun.
  - unfold py_bind. now rewrite Hrun', Hrun.
  - unfold py_bind. now rewrite Hrun'.
Qed.

End Shuffle.

(** ** Moving bytes along a permutation *)

Lemma map_lookup_total_seq {A} `{!Inhabited A} (l : list A) :
  map (fun i => l !!! i) (seq 0 (length l)) = l.
Proof.
  apply list_eq. intros i.
  change (map ?f ?k) with (f <$> k). rewrite list_lookup_fmap.
  destruct (decide (i < length l)) as [Hi | Hi].
  - rewrite lookup_seq_lt by done. cbn.
    symmetry. now apply list_lookup_lookup_total_lt.
  - rewrite (lookup_ge_None_2 l) by lia.
    now rewrite (lookup_ge_None_2 (seq 0 (length l)))
      by (rewrite length_seq; lia).
Qed.

Lemma scatter_ok (p : list nat) (n : nat) (flat : bytes) :
  p ≡ₚ seq 0 n -> length flat = n -> all_bytes flat ->
  scatter flat p n
  = Ok (apply_writes (replicate n 0%Z)
          (map (fun w : nat * nat => (w.2, flat !!! w.1)) (enumerate p))).
Proof.
  intros Hp Hlen Hb. unfold scatter.
  apply (for_each_writes (fun w : nat * nat => (w.2, flat !!! w.1)) n).
  - apply length_replicate.
  - intros [i j] s Hin Hs. apply elem_of_enumerate in Hin. cbn.
    assert (Hi : i < length flat).
    { rewrite Hlen, <- (perm_seq_length p n Hp).
      now apply lookup_lt_Some in Hin. }
    rewrite getitem_lt by done. run_result.
    apply bytearray_setitem_lt.
    + rewrite Hs. now apply (perm_seq_lookup_lt p n i j).
    + now apply Forall_lookup_total_1.
Qed.

Lemma unscatter_ok (q : list nat) (n : nat) (flat : bytes) :
  length q = n -> Forall (fun k => k < n) q ->
  length flat = n -> all_bytes flat ->
  unscatter flat q n
  = Ok (apply_writes (replicate n 0%Z)
          (map (fun i => (q !!! i, flat !!! i)) (seq 0 n))).
Proof.
  intros Hq Hlt Hlen Hb. unfold unscatter.
  apply (for_each_writes (fun i => (q !!! i, flat !!! i)) n).
  - apply length_replicate.
  - intros i s Hin Hs. apply elem_of_seq in Hin. cbn.
    rewrite getitem_lt by lia. run_result.
    rewrite getitem_lt by lia. run_result.
    apply bytearray_setitem_lt.
    + rewrite Hs.
      apply (Forall_lookup_total_1 (fun k => k < n) q i); [done | lia].
    + apply Forall_lookup_total_1; [done | lia].
Qed.

Lemma moved_bytes_shape {A} (n : nat) (flat : bytes) (xs : list A)
  (dest src : A -> nat) :
  all_bytes flat -> Forall (fun a => src a < length flat) xs ->
  let out := apply_writes (replicate n 0%Z)
               (map (fun a => (dest a, flat !!! src a)) xs) in
  length out = n /\ all_bytes out.
Proof.
  intros Hb Hsrc out. split.
  - unfold out. now rewrite apply_writes_length, length_replicate.
  - apply apply_writes_Forall.
    + apply Forall_replicate. unfold is_byte. lia.
    + apply Forall_forall. intros w Hw.
      apply list_elem_of_In, in_map_iff in Hw as (a & <- & Ha). cbn.
      apply Forall_lookup_total_1; [done |].
      apply list_elem_of_In in Ha.
      now apply (proj1 (Forall_forall _ _) Hsrc a).
Qed.

Lemma inverse_entries (p q : list nat) (n : nat) :
  length p = n -> length q = n ->
  (forall i, i < n -> exists k, q !! i = Some k /\ p !! k = Some i) ->
  Forall (fun k => k < n) q /\ NoDup q.
Proof.
  intros Hp Hq Hinv. split.
  - apply Forall_lookup. intros i k Hik.
    destruct (Hinv i) as (k' & Hk' & Hpk).
    { rewrite <- Hq. now apply lookup_lt_Some in Hik. }
    rewrite Hik in Hk'. inversion Hk'; subst k'.
    rewrite <- Hp. now apply lookup_lt_Some in Hpk.
  - apply NoDup_alt. intros i j k Hi Hj.
    destruct (Hinv i) as (k1 & Hk1 & Hp1).
    { rewrite <- Hq. now apply lookup_lt_Some in Hi. }
    destruct (Hinv j) as (k2 & Hk2 & Hp2).
    { rewrite <- Hq. now apply lookup_lt_Some in Hj. }
    rewrite Hi in Hk1. rewrite Hj in Hk2.
    inversion Hk1; inversion Hk2; subst k1 k2. congruence.
Qed.

(** Moving the bytes back along the inverse permutation undoes the move
    along the permutation. *)
Lemma unscatter_scatter (p q : list nat) (n : nat) (x : bytes) :
  p ≡ₚ seq 0 n -> length q = n ->
  (forall i, i < n -> exists k, q !! i = Some k /\ p !! k = Some i) ->
  (forall i, i < n -> exists k, p !! i = Some k /\ q !! k = Some i) ->
  length x = n ->
  let y := apply_writes (replicate n 0%Z)
             (map (fun w : nat * nat => (w.2, x !!! w.1)) (enumerate p)) in
  apply_writes (replicate n 0%Z)
    (map (fun i => (q !!! i, y !!! i)) (seq 0 n)) = x.
Proof.
  intros Hp Hq Hinv1 Hinv2 Hx y.
  pose proof (perm_seq_length p n Hp) as Hlp.
  destruct (inverse_entries p q n Hlp Hq Hinv1) as [Hqlt Hqnd].
  assert (Hy : forall i j, p !! i = Some j -> y !! j = Some (x !!! i)).
  { intros i j Hij. apply apply_writes_lookup.
    - change (fmap fst (map ?f ?l)) with (map fst (map f l)).
      rewrite map_map. cbn.
      change (map (fun w : nat * nat => w.2) (enumerate p))
        with ((enumerate p).*2).
      rewrite enumerate_snd. now apply (perm_seq_NoDup p n).
    - apply list_elem_of_In, in_map_iff. exists (i, j).
      split; [reflexivity |]. now apply list_elem_of_In, elem_of_enumerate.
    - rewrite length_replicate. now apply (perm_seq_lookup_lt p n i j). }
  assert (Hly : length y = n).
  { unfold y. now rewrite apply_writes_length, length_replicate. }
  apply (list_eq_same_length _ _ n); [done | |].
  { now rewrite apply_writes_length, length_replicate. }
  intros k z xk Hk Hz Hxk.
  destruct (Hinv2 k Hk) as (j & Hpj & Hqj).
  assert (Hj : j < n) by now apply (perm_seq_lookup_lt p n k j).
  rewrite (apply_writes_lookup _ _ k (y !!! j)) in Hz.
  - inversion Hz; subst z.
    pose proof (Hy k j Hpj) as Hyj.
    apply list_lookup_total_correct in Hyj. rewrite Hyj.
    apply list_lookup_total_correct in Hxk. now rewrite Hxk.
  - change (fmap fst (map ?f ?l)) with (map fst (map f l)).
    rewrite map_map. cbn. rewrite <- Hq at 1.
    now rewrite map_lookup_total_seq.
  - apply list_elem_of_In, in_map_iff. exists j. split.
    + apply list_lookup_total_correct in Hqj. now rewrite Hqj.
    + apply in_seq. lia.
  - now rewrite length_replicate.
Qed.

(** ** Images and the codec on well-formed pixel lists *)

Lemma key_stream_length (key : string) (len : nat) :
  length (_key_stream key len) = len.
Proof.
  unfold _key_stream. rewrite key_stream_loop_from_empty.
  rewrite length_take, hash_chain_length.
  pose proof (blocks_cover len). lia.
Qed.

Lemma key_stream_all_bytes (key : string) (len : nat) :
  all_bytes (_key_stream key len).
Proof.
  unfold _key_stream. rewrite key_stream_loop_from_empty.
  apply Forall_take, hash_chain_all_bytes.
Qed.

Lemma rgba_pixelb_true (p : list Z) :
  rgba_pixelb p = true <-> length p = 4 /\ all_bytes p.
Proof.
  unfold rgba_pixelb. rewrite andb_true_iff, Nat.eqb_eq.
  rewrite forallb_forall. unfold all_bytes. rewrite Forall_forall.
  split; intros [Hl Hb]; (split; [exact Hl |]); intros b Hin.
  - apply is_byteb_true, Hb. now apply list_elem_of_In.
  - apply is_byteb_true, Hb. now apply list_elem_of_In.
Qed.

Lemma rgba_pixels_true (pixels : list (list Z)) :
  forallb rgba_pixelb pixels = true
  <-> Forall (fun p => length p = 4 /\ all_bytes p) pixels.
Proof.
  rewrite forallb_forall, Forall_forall. split; intros H p Hin.
  - apply rgba_pixelb_true, H. now apply list_elem_of_In.
  - apply rgba_pixelb_true, H. now apply list_elem_of_In.
Qed.

Lemma wf_image_data (img : Image) :
  wf_image img <->
  length (img_data img) = img_width img * img_height img
  /\ forallb rgba_pixelb (img_data img) = true.
Proof.
  unfold wf_image, wf_imageb. now rewrite andb_true_iff, Nat.eqb_eq.
Qed.

Lemma flatten_rgba (pixels : list (list Z)) :
  forallb rgba_pixelb pixels = true ->
  _pixels_to_bytes pixels 4 = Ok (concat pixels)
  /\ length (concat pixels) = 4 * length pixels
  /\ all_bytes (concat pixels)
  /\ rows 4 (concat pixels) = pixels.
Proof.
  intros Hpx. apply rgba_pixels_true in Hpx.
  assert (Hlen : Forall (fun p : list Z => length p = 4) pixels).
  { eapply Forall_impl; [exact Hpx |]. now intros p [Hl _]. }
  split; [| split; [| split]].
  - rewrite pixels_to_bytes_ok.
    + f_equal. clear Hlen. induction Hpx as [| p ps [Hl _] _ IH]; [done |].
      cbn. rewrite IH. f_equal. unfold pixel_bytes.
      rewrite take_ge by lia. rewrite Hl. cbn. apply app_nil_r.
    + eapply Forall_impl; [exact Hpx |]. intros p [_ Hb].
      now apply Forall_take.
  - now apply concat_length_rows.
  - unfold all_bytes. apply Forall_concat.
    eapply Forall_impl; [exact Hpx |]. now intros p [_ Hb].
  - now apply rows_concat.
Qed.

Lemma rows_rgba (data : bytes) (m : nat) :
  length data = 4 * m -> all_bytes data ->
  forallb rgba_pixelb (rows 4 data) = true
  /\ length (rows 4 data) = m
  /\ concat (rows 4 data) = data.
Proof.
  intros Hlen Hb.
  destruct (concat_rows 4 m data) as (Hrows & Hcat & Hall); [done | done |].
  split; [| split; [| exact Hcat]].
  - apply rgba_pixels_true. apply Forall_forall. intros p Hin.
    split; [now apply (proj1 (Forall_forall _ _) Hall) |].
    rewrite Hrows in Hin.
    apply list_elem_of_In, in_map_iff in Hin as (k & <- & _).
    now apply Forall_take, Forall_drop.
  - now rewrite Hrows, length_map, length_seq.
Qed.

Lemma putdata_exact (width height : nat) (pixels : list (list Z)) :
  length pixels = width * height ->
  forallb rgba_pixelb pixels = true ->
  Image_new_putdata width height pixels = Ok (mk_image width height pixels).
Proof.
  intros Hlen Hpx. unfold Image_new_putdata.
  rewrite decide_True by done. now rewrite Hpx.
Qed.

(** ** The pipelines *)

Section Pipelines.

Context {R : PyRandom}.

Lemma py_bind_run {A B} (m : Py A) (k : A -> Py B) (st st' : interp) (a : A) :
  m st = (Ok a, st') -> py_bind m k st = k a st'.
Proof. intros Hm. unfold py_bind. now rewrite Hm. Qed.

Lemma py_bind_lift_Ok {A B} (a : A) (k : A -> Py B) (st : interp) :
  py_bind (lift (Ok a)) k st = k a st.
Proof. reflexivity. Qed.

(** The position stage of [encode] and the stage of [decode] that
    undoes it. *)
Lemma shuffle_stage (password : string) (n : nat) (x : bytes) (shuffle : bool) :
  length x = n -> all_bytes x ->
  exists y,
    length y = n /\ all_bytes y /\ (shuffle = false -> y = x)
    /\ (forall st : interp,
          (if shuffle then
             indices <- _shuffle_indices n (password_seed password) ;;
             lift (scatter x indices n)
           else py_ret x) st = (Ok y, st))
    /\ (forall st : interp,
          (if shuffle then
             indices <- _shuffle_indices n (password_seed password) ;;
             inverse <- lift (_unshuffle_indices indices) ;;
             lift (unscatter y inverse n)
           else py_ret y) st = (Ok x, st)).
Proof.
  intros Hx Hb. destruct shuffle.
  2: { exists x. repeat split; done. }
  destruct (shuffle_indices_run n (password_seed password))
    as (p & Hp & Hrun).
  destruct (unshuffle_indices_spec p n Hp) as (q & Hq & Hlq & Hinv1 & Hinv2).
  pose proof (perm_seq_length p n Hp) as Hlp.
  destruct (inverse_entries p q n Hlp Hlq Hinv1) as [Hqlt Hqnd].
  set (y := apply_writes (replicate n 0%Z)
              (map (fun w : nat * nat => (w.2, x !!! w.1)) (enumerate p))).
  destruct (moved_bytes_shape n x (enumerate p) snd fst Hb) as [Hly Hby].
  { apply Forall_forall. intros [i j] Hin. cbn.
    apply elem_of_enumerate, lookup_lt_Some in Hin. lia. }
  fold y in Hly, Hby.
  exists y. split; [exact Hly |]. split; [exact Hby |].
  split; [discriminate |]. split.
  - intros st. rewrite (py_bind_run _ _ st st p (Hrun st)).
    unfold lift. now rewrite scatter_ok.
  - intros st. rewrite (py_bind_run _ _ st st p (Hrun st)).
    rewrite Hq, py_bind_lift_Ok. unfold lift.
    rewrite unscatter_ok by done. do 2 f_equal.
    now apply unscatter_scatter.
Qed.


(** [encode] on a well-formed image: the bytes [y] of the result, and
    how the position stage of [decode] maps them back. *)
Lemma encode_run (img : Image) (password : string) (shuffle : bool) :
  wf_image img ->
  exists y,
    length y = 4 * length (img_data img)
    /\ all_bytes y
    /\ (shuffle = false ->
          y = zip_with Z.lxor (concat (img_data img))
                (_key_stream password (length (concat (img_data img)))))
    /\ (forall st : interp,
          encode img password shuffle st
          = (Ok (mk_image (img_width img) (img_height img) (rows 4 y)), st))
    /\ (forall st : interp,
          (if shuffle then
             indices <- _shuffle_indices (4 * length (img_data img))
                          (password_seed password) ;;
             inverse <- lift (_unshuffle_indices indices) ;;
             lift (unscatter y inverse (4 * length (img_data img)))
           else py_ret y) st
          = (Ok (zip_with Z.lxor (concat (img_data img))
                   (_key_stream password (4 * length (img_data img)))), st)).
Proof.
  intros Hwf. apply wf_image_data in Hwf as [Hcount Hpx].
  destruct (flatten_rgba _ Hpx) as (Hflat & Hlen & Hb & _).
  set (n := 4 * length (img_data img)) in *.
  set (ks := _key_stream password n).
  assert (Hlk : length ks = n) by apply key_stream_length.
  assert (Hbk : all_bytes ks) by apply key_stream_all_bytes.
  set (x := zip_with Z.lxor (concat (img_data img)) ks).
  assert (Hlx : length x = n).
  { unfold x. rewrite zip_xor_length; lia. }
  assert (Hbx : all_bytes x) by now apply zip_xor_all_bytes.
  destruct (shuffle_stage password n x shuffle Hlx Hbx)
    as (y & Hly & Hby & Hplain & Hfwd & Hback).
  exists y. split; [exact Hly |]. split; [exact Hby |].
  split; [| split].
  - intros Hs. rewrite Hlen. now apply Hplain.
  - intros st. unfold encode. cbv zeta.
    rewrite Hflat, py_bind_lift_Ok, Hlen. fold n. fold ks.
    rewrite xor_key_ok by done. rewrite py_bind_lift_Ok. fold x.
    rewrite (py_bind_run _ _ st st y (Hfwd st)).
    rewrite bytes_to_pixels_rows by done. rewrite py_bind_lift_Ok.
    unfold lift. f_equal.
    destruct (rows_rgba y (length (img_data img)) Hly Hby) as (Hr & Hlr & _).
    apply putdata_exact; [lia | exact Hr].
  - exact Hback.
Qed.

(** [decode] on an image whose bytes are [y], given what the position
    stage makes of them. *)
Lemma decode_rows (width height : nat) (password : string)
  (was_shuffled : bool) (y x : bytes) :
  length y = 4 * (width * height) -> all_bytes y ->
  length x = length y -> all_bytes x ->
  (forall st : interp,
     (if was_shuffled then
        indices <- _shuffle_indices (length y) (password_seed password) ;;
        inverse <- lift (_unshuffle_indices indices) ;;
        lift (unscatter y inverse (length y))
      else py_ret y) st = (Ok x, st)) ->
  forall st : interp,
    decode (mk_image width height (rows 4 y)) password was_shuffled st
    = (Ok (mk_image width height
             (rows 4 (zip_with Z.lxor x (_key_stream password (length y))))),
       st).
Proof.
  intros Hly Hby Hlx Hbx Hstage st.
  destruct (rows_rgba y (width * height) Hly Hby) as (Hr & Hlr & Hcat).
  destruct (flatten_rgba _ Hr) as (Hflat & _ & _ & _).
  unfold decode. cbv zeta. cbn [img_data img_width img_height].
  rewrite Hflat, py_bind_lift_Ok, Hcat.
  rewrite (py_bind_run _ _ st st x (Hstage st)).
  pose proof (key_stream_length password (length y)) as Hlk.
  pose proof (key_stream_all_bytes password (length y)) as Hbk.
  rewrite xor_key_ok by (done || lia). rewrite py_bind_lift_Ok.
  rewrite bytes_to_pixels_rows by done. rewrite py_bind_lift_Ok.
  unfold lift. f_equal.
  destruct (rows_rgba
              (zip_with Z.lxor x (_key_stream password (length y)))
              (width * height)) as (Hr' & Hlr' & _).
  { rewrite zip_xor_length; lia. }
  { now apply zip_xor_all_bytes. }
  apply putdata_exact; [lia | exact Hr'].
Qed.


Lemma round_trip (img : Image) (password : string) (shuffle : bool)
  (st st' : interp) :
  wf_image img ->
  exists enc,
    encode img password shuffle st = (Ok enc, st)
    /\ decode enc password shuffle st' = (Ok img, st').
Proof.
  intros Hwf.
  destruct (encode_run img password shuffle Hwf)
    as (y & Hly & Hby & _ & Henc & Hback).
  apply wf_image_data in Hwf as [Hcount Hpx].
  destruct (flatten_rgba _ Hpx) as (_ & Hlen & Hb & Hrows).
  eexists. split; [apply Henc |].
  pose proof (key_stream_length password (4 * length (img_data img))) as Hlk.
  pose proof (key_stream_all_bytes password (4 * length (img_data img)))
    as Hbk.
  set (x := zip_with Z.lxor (concat (img_data img))
              (_key_stream password (4 * length (img_data img)))) in *.
  assert (Hlx : length x = length y).
  { unfold x. rewrite zip_xor_length; lia. }
  assert (Hbx : all_bytes x) by now apply zip_xor_all_bytes.
  rewrite <- Hly in Hback.
  rewrite (decode_rows (img_width img) (img_height img) password shuffle y x
             (eq_trans Hly (f_equal (Nat.mul 4) Hcount)) Hby Hlx Hbx Hback).
  unfold x. rewrite Hly, zip_xor_involutive by lia. rewrite Hrows.
  now destruct img.
Qed.

(** C1. Round trip: for every well-formed RGBA image, every password
    and every shuffle flag, [encode] succeeds, and [decode] with the same
    password and flag applied to its result gives the original image
    back, pixel for pixel. *)
Theorem encode_decode_round_trip (img : Image) (password : string)
  (shuffle : bool) (st st' : interp) :
  wf_image img ->
  exists enc,
    encode img password shuffle st = (Ok enc, st)
    /\ decode enc password shuffle st' = (Ok img, st').
Proof. exact (round_trip img password shuffle st st'). Qed.

(** C5. Without the shuffle, [encode] gives exactly the unflattened
    byte-wise XOR of the flattened pixels with the key stream of the same
    length, no byte changes place, and [decode] with the same flag gives
    the original image back. *)
Theorem encode_without_shuffle (img : Image) (password : string)
  (st st' : interp) :
  wf_image img ->
  exists flat pixels,
    _pixels_to_bytes (img_data img) 4 = Ok flat
    /\ _bytes_to_pixels
         (zip_with Z.lxor flat (_key_stream password (length flat))) 4
       = Ok pixels
    /\ encode img password false st
       = (Ok (mk_image (img_width img) (img_height img) pixels), st)
    /\ decode (mk_image (img_width img) (img_height img) pixels)
         password false st'
       = (Ok img, st').
Proof.
  intros Hwf.
  destruct (encode_run img password false Hwf)
    as (y & Hly & Hby & Hplain & Henc & _).
  specialize (Hplain eq_refl).
  apply wf_image_data in Hwf as [Hcount Hpx].
  destruct (flatten_rgba _ Hpx) as (Hflat & Hlen & Hb & Hrows).
  exists (concat (img_data img)), (rows 4 y).
  split; [exact Hflat |]. rewrite <- Hplain.
  split; [now apply bytes_to_pixels_rows |]. split; [apply Henc |].
  rewrite (decode_rows (img_width img) (img_height img) password false y y
             (eq_trans Hly (f_equal (Nat.mul 4) Hcount)) Hby eq_refl Hby
             (fun st => eq_refl)).
  pose proof (key_stream_length password (length (concat (img_data img))))
    as Hlk.
  rewrite Hly, <- Hlen. rewrite Hplain at 1.
  rewrite zip_xor_involutive by lia. rewrite Hrows.
  now destruct img.
Qed.


Lemma Image_open_found (path : string) (img : Image) (st : interp) :
  files st !! path = Some img -> Image_open path st = (Ok img, st).
Proof. intros Hf. unfold Image_open. now rewrite Hf. Qed.


(** The round trip through the files: decrypting the file written by
    [encrypt_image] writes the original image. *)
Lemma encrypt_decrypt_files (a b c password : string) (flag : bool)
  (st : interp) (img : Image) :
  files st !! a = Some img ->
  wf_image img ->
  exists st1 st2,
    encrypt_image a b password flag st = (Ok tt, st1)
    /\ decrypt_image b c password flag st1 = (Ok tt, st2)
    /\ files st2 !! c = Some img
    /\ generators st2 = generators st.
Proof.
  intros Hfile Hwf.
  destruct (round_trip img password flag st st Hwf) as (enc & Henc & _).
  eexists. eexists. split; [| split; [| split]].
  - unfold encrypt_image.
    rewrite (py_bind_run _ _ st st img (Image_open_found _ _ _ Hfile)).
    rewrite (py_bind_run _ _ st st enc Henc). reflexivity.
  - unfold decrypt_image.
    erewrite py_bind_run.
    2: { apply Image_open_found. cbn. apply lookup_insert_eq. }
    destruct (round_trip img password flag st
                (Interp (generators st) (<[b := enc]> (files st))
                   (stdout st
                      ++ [String.append "Encrypted image saved to: " b]))
                Hwf) as (enc' & Henc' & Hdec).
    rewrite Henc in Henc'. inversion Henc'; subst enc'.
    erewrite py_bind_run; [| exact Hdec]. reflexivity.
  - cbn. apply lookup_insert_eq.
  - reflexivity.
Qed.

End Pipelines.

(** ** The theorems at concrete inputs *)

Lemma encode_decode_round_trip_witness :
  wf_image sample_image
  /\ exists enc,
       encode sample_image "test" true initial_interp
       = (Ok enc, initial_interp)
       /\ decode enc "test" true initial_interp
          = (Ok sample_image, initial_interp).
Proof.
  split; [reflexivity |].
  apply (encode_decode_round_trip sample_image "test" true
           initial_interp initial_interp).
  reflexivity.
Defined.

Lemma encode_without_shuffle_witness :
  wf_image sample_image
  /\ exists flat pixels,
       _pixels_to_bytes (img_data sample_image) 4 = Ok flat
       /\ _bytes_to_pixels
            (zip_with Z.lxor flat (_key_stream "test" (length flat))) 4
          = Ok pixels
       /\ encode sample_image "test" false initial_interp
          = (Ok (mk_image 2 2 pixels), initial_interp)
       /\ decode (mk_image 2 2 pixels) "test" false initial_interp
          = (Ok sample_image, initial_interp).
Proof.
  split; [reflexivity |].
  apply (encode_without_shuffle sample_image "test"
           initial_interp initial_interp).
  reflexivity.
Defined.




Lemma shuffle_indices_bijection_witness :
  exists l,
    _shuffle_indices 6 42 initial_interp = (Ok l, initial_interp)
    /\ length l = 6
    /\ count_occ Nat.eq_dec l 0 = 1
    /\ count_occ Nat.eq_dec l 5 = 1.
Proof.
  destruct (shuffle_indices_bijection 6 42 initial_interp)
    as (l & Hrun & Hlen & _ & _ & _ & Hocc).
  exists l. split; [exact Hrun |]. split; [exact Hlen |].
  split; apply Hocc; lia.
Defined.

(** * Further properties of the code *)

(** ** The key stream and the seed *)

Lemma key_stream_chain (key : string) (len m : nat) :
  len <= 32 * m ->
  _key_stream key len
  = take len (hash_chain (SHA256.digest (encode_utf8 key)) m).
Proof.
  intros Hm. unfold _key_stream. rewrite key_stream_loop_from_empty.
  pose proof (blocks_cover len) as Hc. apply blocks_least in Hm.
  replace m with ((len + 31) / 32 + (m - (len + 31) / 32)) by lia.
  rewrite hash_chain_prefix, take_app_le; [reflexivity |].
  rewrite hash_chain_length. exact Hc.
Qed.

(** X1. The key stream of a password is stable under the requested
    length: the stream of a shorter length is the beginning of the
    stream of any longer length. *)
Theorem key_stream_prefix (key : string) (m n : nat) :
  m <= n -> _key_stream key m = take m (_key_stream key n).
Proof.
  intros Hmn. pose proof (blocks_cover n) as Hn.
  rewrite (key_stream_chain key n ((n + 31) / 32)) by done.
  rewrite (key_stream_chain key m ((n + 31) / 32)) by lia.
  rewrite take_take. f_equal. lia.
Qed.

Lemma key_stream_prefix_witness :
  3 <= 40 /\ _key_stream "test" 3 = take 3 (_key_stream "test" 40).
Proof.
  assert (H : 3 <= 40) by lia.
  split; [exact H | exact (key_stream_prefix "test" 3 40 H)].
Defined.

Lemma int_of_hex_nibbles (l : bytes) :
  forall acc : Z,
    fold_left (fun a d => (a * 16 + d)%Z)
      (flat_map (fun b => [(b / 16)%Z; (b mod 16)%Z]) l) acc
    = fold_left (fun a b => (a * 256 + b)%Z) l acc.
Proof.
  induction l as [| b l IH]; intros acc; [reflexivity |].
  cbn [flat_map app fold_left]. rewrite IH. f_equal.
  pose proof (Z.div_mod b 16). lia.
Qed.

Lemma take_nibbles (l : bytes) :
  forall k : nat,
    take (2 * k) (flat_map (fun b => [(b / 16)%Z; (b mod 16)%Z]) l)
    = flat_map (fun b => [(b / 16)%Z; (b mod 16)%Z]) (take k l).
Proof.
  induction l as [| b l IH]; intros k.
  - cbn [flat_map]. now rewrite !take_nil.
  - destruct k as [| k]; [reflexivity |].
    replace (2 * S k) with (S (S (2 * k))) by lia.
    cbn [flat_map app take]. now rewrite IH.
Qed.

Lemma be_value_bound (l : bytes) :
  all_bytes l ->
  forall acc : Z, (0 <= acc)%Z ->
    (0 <= fold_left (fun a b => a * 256 + b) l acc
     < (acc + 1) * 256 ^ Z.of_nat (length l))%Z.
Proof.
  intros Hb. induction Hb as [| b l Hbyte _ IH]; intros acc Hacc.
  - cbn. lia.
  - cbn [fold_left length]. unfold is_byte in Hbyte.
    destruct (IH (acc * 256 + b)%Z) as [Hlo Hhi]; [lia |].
    split; [exact Hlo |].
    rewrite Nat2Z.inj_succ, Z.pow_succ_r by lia.
    assert (Hp : (0 < 256 ^ Z.of_nat (length l))%Z)
      by (apply Z.pow_pos_nonneg; lia).
    nia.
Qed.

(** X2. The seed of the shuffle is the unsigned 64-bit integer that the
    first eight bytes of the SHA-256 digest of the encoded password
    spell, most significant byte first. *)
Theorem password_seed_first_eight_bytes (password : string) :
  password_seed password
  = SHA256.be_value (take 8 (SHA256.digest (encode_utf8 password)))
  /\ (0 <= password_seed password < 2 ^ 64)%Z.
Proof.
  assert (Heq : password_seed password
                = SHA256.be_value
                    (take 8 (SHA256.digest (encode_utf8 password)))).
  { unfold password_seed, SHA256.hexdigest, int_of_hex, SHA256.be_value.
    rewrite (take_nibbles _ 8). apply int_of_hex_nibbles. }
  split; [exact Heq |]. rewrite Heq. unfold SHA256.be_value.
  pose proof (be_value_bound (take 8 (SHA256.digest (encode_utf8 password))))
    as Hb.
  destruct (Hb (Forall_take _ _ _ (digest_all_bytes _)) 0%Z) as [Hlo Hhi];
    [lia |].
  split; [exact Hlo |].
  rewrite length_take, digest_length in Hhi.
  exact Hhi.
Qed.

(** ** Loops that stop at an exception *)

Lemma for_each_raises {A S} (inv : S -> Prop) (bad : A -> Prop) (e : exn)
  (xs : list A) (body : A -> S -> result S) (init : S) :
  (forall x, bad x \/ ~ bad x) ->
  inv init ->
  (forall x s, x ∈ xs -> inv s -> bad x -> body x s = Raise e) ->
  (forall x s, x ∈ xs -> inv s -> ~ bad x ->
     exists s', body x s = Ok s' /\ inv s') ->
  Exists bad xs ->
  for_each xs body init = Raise e.
Proof.
  intros Hdec Hinit Hbad Hgood Hex. revert init Hinit.
  induction xs as [| x xs IH]; intros init Hinit.
  - inversion Hex.
  - cbn [for_each]. destruct (Hdec x) as [Hx | Hx].
    + rewrite (Hbad x init) by (done || apply list_elem_of_here).
      reflexivity.
    + destruct (Hgood x init) as (s' & Hs' & Hinv');
        [apply list_elem_of_here | done | done |].
      rewrite Hs'. run_result. apply IH.
      * intros y s Hy. apply Hbad. now apply list_elem_of_further.
      * intros y s Hy. apply Hgood. now apply list_elem_of_further.
      * apply Exists_cons in Hex as [Hex | Hex]; [contradiction | done].
      * exact Hinv'.
Qed.

(** ** The pixel codec, completed *)

Lemma pixel_loop_raises (p : list Z) (channels : nat) (out : bytes) :
  ~ all_bytes (take channels p) ->
  for_each (seq 0 channels)
    (fun c out =>
       v ← (if decide (c < length p) then getitem p c else Ok 255%Z);
       bytearray_append out v)
    out
  = Raise ValueError.
Proof.
  intros Hnb.
  apply (for_each_raises (fun _ => True)
           (fun c => c < length p /\ ~ is_byte (p !!! c))).
  - intros c. destruct (decide (c < length p /\ ~ is_byte (p !!! c))); tauto.
  - exact I.
  - intros c s _ _ [Hc Hv]. rewrite decide_True by done.
    rewrite getitem_lt by done. run_result.
    unfold bytearray_append.
    destruct (is_byteb (p !!! c)) eqn:Hb; [| reflexivity].
    now apply is_byteb_true in Hb.
  - intros c s _ _ Hc. destruct (decide (c < length p)) as [Hlt | Hge].
    + rewrite getitem_lt by done. run_result.
      exists (s ++ [p !!! c]). split; [| exact I].
      apply bytearray_append_byte.
      destruct (decide (is_byte (p !!! c))); tauto.
    + run_result. exists (s ++ [255%Z]). split; [reflexivity | exact I].
  - apply not_Forall_Exists in Hnb; [| apply _].
    apply Exists_exists in Hnb as (v & Hin & Hv).
    apply list_elem_of_lookup in Hin as [c Hc].
    apply lookup_take_Some in Hc as [Hc Hlt].
    apply Exists_exists. exists c. split; [apply elem_of_seq; lia |].
    split; [now apply lookup_lt_Some in Hc |].
    apply list_lookup_total_correct in Hc. now rewrite Hc.
Qed.

Lemma pixel_bytes_length (channels : nat) (p : list Z) :
  length (pixel_bytes channels p) = channels.
Proof.
  unfold pixel_bytes. rewrite List.length_app, length_take, length_replicate.
  lia.
Qed.

Lemma pixel_bytes_all_bytes (channels : nat) (p : list Z) :
  all_bytes (take channels p) -> all_bytes (pixel_bytes channels p).
Proof.
  intros Hb. apply Forall_app. split; [exact Hb |].
  apply Forall_replicate. unfold is_byte. lia.
Qed.

(** X3. [_pixels_to_bytes] returns exactly when every component it has
    to emit is a byte value: then the buffer has [channels] byte values
    for each pixel tuple; when some tuple has a component among its
    first [channels] outside [0, 256), the call raises [ValueError]. *)
Theorem pixels_to_bytes_behaviour (pixels : list (list Z)) (channels : nat) :
  (Forall (fun p => all_bytes (take channels p)) pixels ->
     exists out,
       _pixels_to_bytes pixels channels = Ok out
       /\ length out = channels * length pixels
       /\ all_bytes out)
  /\ (~ Forall (fun p => all_bytes (take channels p)) pixels ->
        _pixels_to_bytes pixels channels = Raise ValueError).
Proof.
  split.
  - intros Hb. eexists. split; [now apply pixels_to_bytes_ok |]. split.
    + clear Hb. induction pixels as [| p ps IH]; [cbn; lia |].
      cbn [flat_map length]. rewrite List.length_app, IH, pixel_bytes_length.
      lia.
    + induction Hb as [| p ps Hp _ IH]; [constructor |].
      cbn [flat_map]. apply Forall_app. split; [| exact IH].
      now apply pixel_bytes_all_bytes.
  - intros Hnb. unfold _pixels_to_bytes.
    apply (for_each_raises (fun _ => True)
             (fun p => ~ all_bytes (take channels p))).
    + intros p. destruct (decide (all_bytes (take channels p))); tauto.
    + exact I.
    + intros p s _ _ Hp. now apply pixel_loop_raises.
    + intros p s _ _ Hp. eexists. split; [| exact I].
      apply pixel_loop.
      destruct (decide (all_bytes (take channels p))); tauto.
    + apply not_Forall_Exists in Hnb; [exact Hnb | apply _].
Qed.

Lemma pixels_to_bytes_behaviour_witness :
  (exists out,
     _pixels_to_bytes [[10; 20; 30]; [1; 2; 3; 4; 300]]%Z 4 = Ok out
     /\ length out = 8)
  /\ _pixels_to_bytes [[10; 20; 30]; [1; 2; 300]]%Z 4 = Raise ValueError.
Proof.
  split.
  - destruct (proj1 (pixels_to_bytes_behaviour
                       [[10; 20; 30]; [1; 2; 3; 4; 300]]%Z 4))
      as (out & Hout & Hlen & _).
    { repeat constructor; unfold is_byte; lia. }
    exists out. split; [exact Hout | exact Hlen].
  - apply (proj2 (pixels_to_bytes_behaviour [[10; 20; 30]; [1; 2; 300]]%Z 4)).
    intros Hb. apply Forall_cons in Hb as [_ Hb].
    apply Forall_cons in Hb as [Hb _]. cbn in Hb.
    apply Forall_cons in Hb as [_ Hb]. apply Forall_cons in Hb as [_ Hb].
    apply Forall_cons in Hb as [Hb _]. unfold is_byte in Hb. lia.
Defined.

Lemma rows_nil (c : nat) : c <> 0 -> rows c [] = [].
Proof.
  intros Hc. unfold rows. cbn [length].
  replace ((0 + c - 1) / c) with 0; [reflexivity |].
  symmetry. apply Nat.div_small. lia.
Qed.

Lemma rows_cons (c : nat) (data : bytes) :
  c <> 0 -> data <> [] ->
  rows c data = take c data :: rows c (drop c data).
Proof.
  intros Hc Hne. unfold rows.
  assert (Hlen : 0 < length data) by (destruct data; [done | cbn; lia]).
  assert (Hcount : (length data + c - 1) / c
                   = S ((length (drop c data) + c - 1) / c)).
  { rewrite length_drop. destruct (decide (c <= length data)) as [Hle | Hgt].
    - replace (length data + c - 1) with ((length data - c + c - 1) + 1 * c)
        by lia.
      rewrite Nat.div_add by done. lia.
    - replace (length data - c) with 0 by lia.
      replace ((0 + c - 1) / c) with 0
        by (symmetry; apply Nat.div_small; lia).
      symmetry. apply (Nat.div_unique _ _ _ (length data - 1)); lia. }
  rewrite Hcount, <- cons_seq, <- fmap_S_seq.
  change (map ?f (0 :: ?l)) with (f 0 :: map f l).
  change (map ?f (S <$> ?l)) with (map f (map S l)).
  rewrite map_map. cbn [Nat.mul]. rewrite drop_0. f_equal.
  apply map_ext. intros k. now rewrite drop_drop.
Qed.

Lemma rows_lossless (c : nat) :
  c <> 0 ->
  forall (m : nat) (data : bytes),
    length data <= m ->
    concat (rows c data) = data
    /\ Forall (fun p => 0 < length p <= c) (rows c data).
Proof.
  intros Hc. induction m as [| m IH]; intros data Hm.
  - destruct data; [| cbn in Hm; lia].
    rewrite rows_nil by done. split; [reflexivity | constructor].
  - destruct data as [| b data].
    { rewrite rows_nil by done. split; [reflexivity | constructor]. }
    rewrite rows_cons by done.
    destruct (IH (drop c (b :: data))) as [Hcat Hall].
    { rewrite length_drop. cbn in *. lia. }
    split.
    + cbn [concat]. rewrite Hcat. apply take_drop.
    + constructor; [| exact Hall]. rewrite length_take. cbn. lia.
Qed.

(** X4. [_bytes_to_pixels] loses nothing: for a channel count other than
    0 it never raises, whatever the length of the buffer, it returns one
    tuple per started group of [channels] bytes, no tuple is empty or
    longer than [channels], and the tuples concatenated give the buffer
    back; with channel count 0 it raises [ValueError]. *)
Theorem bytes_to_pixels_lossless (data : bytes) (channels : nat) :
  (channels = 0 -> _bytes_to_pixels data channels = Raise ValueError)
  /\ (channels <> 0 ->
        exists pixels,
          _bytes_to_pixels data channels = Ok pixels
          /\ length pixels = (length data + channels - 1) / channels
          /\ concat pixels = data
          /\ Forall (fun p => 0 < length p <= channels) pixels).
Proof.
  split.
  - intros ->. reflexivity.
  - intros Hc. exists (rows channels data).
    split; [now apply bytes_to_pixels_rows |].
    destruct (rows_lossless channels Hc (length data) data) as [Hcat Hall];
      [done |].
    split; [| split; [exact Hcat | exact Hall]].
    unfold rows. now rewrite length_map, length_seq.
Qed.

Lemma bytes_to_pixels_lossless_witness :
  _bytes_to_pixels [1; 2; 3]%Z 0 = Raise ValueError
  /\ exists pixels,
       _bytes_to_pixels [1; 2; 3; 4; 5; 6; 7]%Z 3 = Ok pixels
       /\ length pixels = 3
       /\ concat pixels = [1; 2; 3; 4; 5; 6; 7]%Z.
Proof.
  split.
  - exact (proj1 (bytes_to_pixels_lossless [1; 2; 3]%Z 0) eq_refl).
  - destruct (proj2 (bytes_to_pixels_lossless [1; 2; 3; 4; 5; 6; 7]%Z 3))
      as (pixels & Hpx & Hlen & Hcat & _); [lia |].
    exists pixels. split; [exact Hpx |]. split; [exact Hlen | exact Hcat].
Defined.

Lemma flatten_full_pixels (c : nat) (pixels : list (list Z)) :
  Forall (fun p => length p = c /\ all_bytes p) pixels ->
  _pixels_to_bytes pixels c = Ok (concat pixels).
Proof.
  intros Hpx. rewrite pixels_to_bytes_ok.
  - f_equal. induction Hpx as [| p ps [Hl _] _ IH]; [done |].
    cbn. rewrite IH. f_equal. unfold pixel_bytes.
    rewrite take_ge by lia. replace (c - length p) with 0 by lia.
    cbn. apply app_nil_r.
  - eapply Forall_impl; [exact Hpx |]. intros p [_ Hb]. now apply Forall_take.
Qed.

(** X5. The codec is a round trip in both directions for every channel
    count other than 0: tuples of exactly [channels] byte values are
    flattened and cut back to the same tuples, and a buffer of byte
    values whose length is a multiple of [channels] is cut and flattened
    back to the same buffer. *)
Theorem codec_round_trip (channels : nat) (pixels : list (list Z))
  (data : bytes) :
  channels <> 0 ->
  (Forall (fun p => length p = channels /\ all_bytes p) pixels ->
     exists flat,
       _pixels_to_bytes pixels channels = Ok flat
       /\ _bytes_to_pixels flat channels = Ok pixels)
  /\ (all_bytes data -> length data mod channels = 0 ->
        exists tuples,
          _bytes_to_pixels data channels = Ok tuples
          /\ _pixels_to_bytes tuples channels = Ok data).
Proof.
  intros Hc. split.
  - intros Hpx. exists (concat pixels).
    split; [now apply flatten_full_pixels |].
    rewrite bytes_to_pixels_rows by done. f_equal.
    apply rows_concat; [done |].
    eapply Forall_impl; [exact Hpx |]. now intros p [Hl _].
  - intros Hb Hmod. exists (rows channels data).
    split; [now apply bytes_to_pixels_rows |].
    destruct (concat_rows channels (length data / channels) data)
      as (Hrows & Hcat & Hall); [done | |].
    { pose proof (Nat.div_mod_eq (length data) channels). lia. }
    rewrite flatten_full_pixels; [now rewrite Hcat |].
    apply Forall_forall. intros p Hin.
    split; [now apply (proj1 (Forall_forall _ _) Hall) |].
    rewrite Hrows in Hin.
    apply list_elem_of_In, in_map_iff in Hin as (k & <- & _).
    now apply Forall_take, Forall_drop.
Qed.

Lemma codec_round_trip_witness :
  3 <> 0
  /\ (exists flat,
        _pixels_to_bytes [[1; 2; 3]; [4; 5; 6]]%Z 3 = Ok flat
        /\ _bytes_to_pixels flat 3 = Ok [[1; 2; 3]; [4; 5; 6]]%Z)
  /\ (exists tuples,
        _bytes_to_pixels [9; 8; 7; 6; 5; 4]%Z 3 = Ok tuples
        /\ _pixels_to_bytes tuples 3 = Ok [9; 8; 7; 6; 5; 4]%Z).
Proof.
  assert (Hc : 3 <> 0) by lia.
  destruct (codec_round_trip 3 [[1; 2; 3]; [4; 5; 6]]%Z
              [9; 8; 7; 6; 5; 4]%Z Hc) as [Hfwd Hback].
  split; [exact Hc |]. split.
  - apply Hfwd. repeat constructor; unfold is_byte; lia.
  - apply Hback; [repeat constructor; unfold is_byte; lia | reflexivity].
Defined.

(** ** [_unshuffle_indices] on every list *)

(** X6. [_unshuffle_indices] raises [IndexError] as soon as the list
    holds an entry that is not below its length. *)
Theorem unshuffle_indices_index_error (shuffled : list nat) :
  Exists (fun j => length shuffled <= j) shuffled ->
  _unshuffle_indices shuffled = Raise IndexError.
Proof.
  intros Hex. unfold _unshuffle_indices.
  apply (for_each_raises (fun s : list nat => length s = length shuffled)
           (fun w : nat * nat => length shuffled <= w.2)).
  - intros w. destruct (decide (length shuffled <= w.2)); tauto.
  - apply length_replicate.
  - intros [i j] s _ Hs Hbad. cbn in *. unfold list_setitem.
    rewrite decide_False by lia. reflexivity.
  - intros [i j] s _ Hs Hgood. cbn in *. exists (<[j := i]> s).
    split; [apply list_setitem_lt; lia | now rewrite length_insert].
  - apply Exists_exists in Hex as (j & Hin & Hj).
    apply list_elem_of_lookup in Hin as [i Hi].
    apply Exists_exists. exists (i, j).
    split; [now apply elem_of_enumerate | exact Hj].
Qed.

Lemma unshuffle_indices_index_error_witness :
  Exists (fun j => length [2; 0; 3] <= j) [2; 0; 3]
  /\ _unshuffle_indices [2; 0; 3] = Raise IndexError.
Proof.
  assert (Hex : Exists (fun j => length [2; 0; 3] <= j) [2; 0; 3]).
  { apply Exists_cons_tl, Exists_cons_tl, Exists_cons_hd. cbn. lia. }
  split; [exact Hex | exact (unshuffle_indices_index_error [2; 0; 3] Hex)].
Defined.

Lemma inverse_is_permutation (p q : list nat) (n : nat) :
  p ≡ₚ seq 0 n -> length q = n ->
  (forall i, i < n -> exists k, q !! i = Some k /\ p !! k = Some i) ->
  (forall i, i < n -> exists k, p !! i = Some k /\ q !! k = Some i) ->
  q ≡ₚ seq 0 n.
Proof.
  intros Hp Hlq Hinv1 Hinv2.
  pose proof (perm_seq_length p n Hp) as Hlp.
  destruct (inverse_entries p q n Hlp Hlq Hinv1) as [Hqlt Hqnd].
  apply NoDup_Permutation; [exact Hqnd | apply NoDup_seq |].
  intros k. rewrite elem_of_seq. split.
  - intros Hin. pose proof (proj1 (Forall_forall _ _) Hqlt k Hin) as Hk.
    cbv beta in Hk. lia.
  - intros [_ Hk]. destruct (Hinv2 k) as (j & _ & Hj); [lia |].
    now apply list_elem_of_lookup_2 in Hj.
Qed.

(** X7. On permutations [_unshuffle_indices] is an involution: the
    inverse of a permutation of [0..n-1] is again a permutation of
    [0..n-1], and inverting it gives the first permutation back. *)
Theorem unshuffle_indices_involutive (p : list nat) (n : nat) :
  p ≡ₚ seq 0 n ->
  exists q,
    _unshuffle_indices p = Ok q
    /\ q ≡ₚ seq 0 n
    /\ _unshuffle_indices q = Ok p.
Proof.
  intros Hp.
  destruct (unshuffle_indices_spec p n Hp) as (q & Hq & Hlq & Hinv1 & Hinv2).
  pose proof (inverse_is_permutation p q n Hp Hlq Hinv1 Hinv2) as Hqp.
  destruct (unshuffle_indices_spec q n Hqp) as (r & Hr & Hlr & Hinv3 & Hinv4).
  exists q. split; [exact Hq |]. split; [exact Hqp |].
  rewrite Hr. f_equal.
  pose proof (perm_seq_length p n Hp) as Hlp.
  apply (list_eq_same_length _ _ n); [done | done |].
  intros k a b Hk Ha Hb.
  destruct (Hinv3 k Hk) as (i & Hri & Hqi).
  rewrite Ha in Hri. inversion Hri; subst i.
  assert (Hia : a < n).
  { rewrite <- Hlq. now apply lookup_lt_Some in Hqi. }
  destruct (Hinv1 a Hia) as (k' & Hqa & Hpk').
  rewrite Hqi in Hqa. inversion Hqa; subst k'.
  rewrite Hb in Hpk'. now inversion Hpk'.
Qed.

Lemma unshuffle_indices_involutive_witness :
  [2; 0; 3; 1] ≡ₚ seq 0 4
  /\ exists q,
       _unshuffle_indices [2; 0; 3; 1] = Ok q
       /\ q ≡ₚ seq 0 4
       /\ _unshuffle_indices q = Ok [2; 0; 3; 1].
Proof.
  assert (Hp : [2; 0; 3; 1] ≡ₚ seq 0 4).
  { cbn. apply (Permutation_sym (l := [0; 1; 2; 3])).
    apply (perm_trans (l' := [0; 2; 1; 3])).
    - apply perm_skip, perm_swap.
    - apply (perm_trans (l' := [2; 0; 1; 3])); [apply perm_swap |].
      do 2 apply perm_skip. apply perm_swap. }
  split; [exact Hp | exact (unshuffle_indices_involutive [2; 0; 3; 1] 4 Hp)].
Defined.

Lemma apply_writes_lookup_written {V} (ws : list (nat * V)) :
  forall (init : list V) (j : nat),
    j ∈ ws.*1 -> j < length init ->
    exists v, (j, v) ∈ ws /\ apply_writes init ws !! j = Some v.
Proof.
  induction ws as [| w ws IH]; intros init j Hin Hj.
  - now apply elem_of_nil in Hin.
  - change (apply_writes init (w :: ws))
      with (apply_writes (<[w.1 := w.2]> init) ws).
    destruct (decide (j ∈ ws.*1)) as [Hlater | Hlast].
    + destruct (IH (<[w.1 := w.2]> init) j Hlater) as (v & Hv & Hlook).
      { now rewrite length_insert. }
      exists v. split; [now apply list_elem_of_further | exact Hlook].
    + cbn in Hin. apply elem_of_cons in Hin as [-> | Hin]; [| contradiction].
      exists w.2. split.
      * destruct w. apply list_elem_of_here.
      * rewrite apply_writes_untouched by done.
        now apply list_lookup_insert_eq.
Qed.

(** X8. On any list whose entries are all below its length, permutation
    or not, [_unshuffle_indices] returns a list of the same length that
    sends every value occurring in the input to a position holding that
    value, and that holds 0 at every value that does not occur. *)
Theorem unshuffle_indices_in_range (shuffled : list nat) :
  Forall (fun j => j < length shuffled) shuffled ->
  exists inverse,
    _unshuffle_indices shuffled = Ok inverse
    /\ length inverse = length shuffled
    /\ (forall j, j ∈ shuffled ->
          exists i, inverse !! j = Some i /\ shuffled !! i = Some j)
    /\ (forall j, j < length shuffled -> j ∉ shuffled ->
          inverse !! j = Some 0).
Proof.
  intros Hlt. eexists. split.
  - unfold _unshuffle_indices.
    apply (for_each_writes (fun w : nat * nat => (w.2, w.1))
             (length shuffled)).
    + apply length_replicate.
    + intros [i j] s Hin Hs. apply elem_of_enumerate in Hin. cbn.
      apply list_setitem_lt. rewrite Hs.
      apply (proj1 (Forall_forall _ _) Hlt).
      now apply list_elem_of_lookup_2 in Hin.
  - split; [now rewrite apply_writes_length, length_replicate |]. split.
    + intros j Hin.
      destruct (apply_writes_lookup_written
                  (map (fun w : nat * nat => (w.2, w.1)) (enumerate shuffled))
                  (replicate (length shuffled) 0) j) as (i & Hw & Hlook).
      * now rewrite unshuffle_dests.
      * rewrite length_replicate.
        now apply (proj1 (Forall_forall _ _) Hlt).
      * exists i. split; [exact Hlook |].
        apply list_elem_of_In, in_map_iff in Hw as ([i' j'] & Heq & Hin').
        inversion Heq; subst i' j'.
        now apply list_elem_of_In, elem_of_enumerate in Hin'.
    + intros j Hj Hnot. rewrite apply_writes_untouched.
      * now apply lookup_replicate_2.
      * now rewrite unshuffle_dests.
Qed.

Lemma unshuffle_indices_in_range_witness :
  Forall (fun j => j < length [1; 1; 3; 1]) [1; 1; 3; 1]
  /\ exists inverse,
       _unshuffle_indices [1; 1; 3; 1] = Ok inverse
       /\ length inverse = 4
       /\ inverse !! 0 = Some 0
       /\ inverse !! 2 = Some 0.
Proof.
  assert (Hlt : Forall (fun j => j < length [1; 1; 3; 1]) [1; 1; 3; 1])
    by (repeat constructor).
  split; [exact Hlt |].
  destruct (unshuffle_indices_in_range [1; 1; 3; 1] Hlt)
    as (inverse & Hinv & Hlen & _ & Hzero).
  exists inverse. split; [exact Hinv |]. split; [exact Hlen |].
  split; apply Hzero; cbn; try lia.
  - intros Hin. repeat (apply elem_of_cons in Hin as [Hin | Hin]; [lia |]).
    now apply elem_of_nil in Hin.
  - intros Hin. repeat (apply elem_of_cons in Hin as [Hin | Hin]; [lia |]).
    now apply elem_of_nil in Hin.
Defined.

(** ** The position stage, in both orders *)

Lemma moved_lookup (p : list nat) (n : nat) (x : bytes) (i j : nat) :
  p ≡ₚ seq 0 n -> p !! i = Some j -> moved n x p !! j = Some (x !!! i).
Proof.
  intros Hp Hij. unfold moved. apply apply_writes_lookup.
  - change (fmap fst (map ?f ?l)) with (map fst (map f l)).
    rewrite map_map. cbn.
    change (map (fun w : nat * nat => w.2) (enumerate p))
      with ((enumerate p).*2).
    rewrite enumerate_snd. now apply (perm_seq_NoDup p n).
  - apply list_elem_of_In, in_map_iff. exists (i, j).
    split; [reflexivity |]. now apply list_elem_of_In, elem_of_enumerate.
  - rewrite length_replicate. now apply (perm_seq_lookup_lt p n i j).
Qed.

Lemma moved_length (p : list nat) (n : nat) (x : bytes) :
  length (moved n x p) = n.
Proof. unfold moved. now rewrite apply_writes_length, length_replicate. Qed.

Lemma moved_back_length (q : list nat) (n : nat) (y : bytes) :
  length (moved_back n y q) = n.
Proof.
  unfold moved_back. now rewrite apply_writes_length, length_replicate.
Qed.

Lemma moved_back_lookup (q : list nat) (n : nat) (y : bytes) (i : nat) :
  length q = n -> NoDup q -> Forall (fun k => k < n) q -> i < n ->
  moved_back n y q !! (q !!! i) = Some (y !!! i).
Proof.
  intros Hlq Hnd Hlt Hi. unfold moved_back. apply apply_writes_lookup.
  - change (fmap fst (map ?f ?l)) with (map fst (map f l)).
    rewrite map_map. cbn. rewrite <- Hlq at 1.
    now rewrite map_lookup_total_seq.
  - apply list_elem_of_In, in_map_iff. exists i.
    split; [reflexivity | apply in_seq; lia].
  - rewrite length_replicate.
    apply (Forall_lookup_total_1 (fun k => k < n) q i); [done | lia].
Qed.

(** The moved bytes are the bytes of [x] in another order. *)
Lemma moved_Permutation (p : list nat) (n : nat) (x : bytes) :
  p ≡ₚ seq 0 n -> length x = n -> moved n x p ≡ₚ x.
Proof.
  intros Hp Hx. pose proof (perm_seq_length p n Hp) as Hlp.
  pose proof (moved_length p n x) as Hlm.
  assert (Heq : x = (fun j => moved n x p !!! j) <$> p).
  { apply (list_eq_same_length _ _ n); [| done |].
    - now rewrite length_fmap.
    - intros i a b Hi Ha Hb. rewrite list_lookup_fmap in Hb.
      destruct (p !! i) as [j |] eqn:Hij; [| discriminate].
      cbn in Hb. inversion Hb; subst b.
      pose proof (moved_lookup p n x i j Hp Hij) as Hm.
      apply list_lookup_total_correct in Hm. rewrite Hm.
      now apply list_lookup_total_correct in Ha. }
  remember (moved n x p) as m eqn:Hm. clear Hm.
  rewrite Heq.
  transitivity ((fun j => m !!! j) <$> seq 0 n).
  - rewrite <- Hlm. change (?f <$> seq 0 ?k) with (map f (seq 0 k)).
    now rewrite map_lookup_total_seq.
  - apply fmap_Permutation. now symmetry.
Qed.

(** Moving bytes back along the inverse and then along the permutation
    gives them back. *)
Lemma scatter_unscatter (p q : list nat) (n : nat) (y : bytes) :
  p ≡ₚ seq 0 n -> length q = n ->
  (forall i, i < n -> exists k, q !! i = Some k /\ p !! k = Some i) ->
  (forall i, i < n -> exists k, p !! i = Some k /\ q !! k = Some i) ->
  length y = n ->
  moved n (moved_back n y q) p = y.
Proof.
  intros Hp Hlq Hinv1 Hinv2 Hy.
  pose proof (perm_seq_length p n Hp) as Hlp.
  destruct (inverse_entries p q n Hlp Hlq Hinv1) as [Hqlt Hqnd].
  apply (list_eq_same_length _ _ n); [done | apply moved_length |].
  intros k a b Hk Ha Hb.
  destruct (Hinv1 k Hk) as (i & Hqk & Hpi).
  rewrite (moved_lookup p n _ i k Hp Hpi) in Ha. inversion Ha; subst a.
  pose proof (moved_back_lookup q n y k Hlq Hqnd Hqlt Hk) as Hz.
  apply list_lookup_total_correct in Hqk. rewrite Hqk in Hz.
  apply list_lookup_total_correct in Hz. rewrite Hz.
  now apply list_lookup_total_correct in Hb.
Qed.

Section PipelinesCompleted.

Context {R : PyRandom}.

(** The position stage of [encode] with the shuffle, in terms of the
    list that [_shuffle_indices] returns. *)
Lemma shuffle_stage_moved (password : string) (n : nat) (x : bytes) :
  length x = n -> all_bytes x ->
  exists p,
    p ≡ₚ seq 0 n
    /\ (forall st : interp,
          _shuffle_indices n (password_seed password) st = (Ok p, st))
    /\ (forall st : interp,
          (indices <- _shuffle_indices n (password_seed password) ;;
           lift (scatter x indices n)) st = (Ok (moved n x p), st)).
Proof.
  intros Hx Hb.
  destruct (shuffle_indices_run n (password_seed password))
    as (p & Hp & Hrun).
  exists p. split; [exact Hp |]. split; [exact Hrun |].
  intros st. rewrite (py_bind_run _ _ st st p (Hrun st)).
  unfold lift, moved. now rewrite scatter_ok.
Qed.

(** The position stage of [decode] followed by the one of [encode]. *)
Lemma unshuffle_then_shuffle (password : string) (n : nat) (y : bytes)
  (flag : bool) :
  length y = n -> all_bytes y ->
  exists z,
    length z = n /\ all_bytes z
    /\ (forall st : interp,
          (if flag then
             indices <- _shuffle_indices n (password_seed password) ;;
             inverse <- lift (_unshuffle_indices indices) ;;
             lift (unscatter y inverse n)
           else py_ret y) st = (Ok z, st))
    /\ (forall st : interp,
          (if flag then
             indices <- _shuffle_indices n (password_seed password) ;;
             lift (scatter z indices n)
           else py_ret z) st = (Ok y, st)).
Proof.
  intros Hy Hb. destruct flag.
  2: { exists y. repeat split; done. }
  destruct (shuffle_indices_run n (password_seed password))
    as (p & Hp & Hrun).
  destruct (unshuffle_indices_spec p n Hp) as (q & Hq & Hlq & Hinv1 & Hinv2).
  pose proof (perm_seq_length p n Hp) as Hlp.
  destruct (inverse_entries p q n Hlp Hlq Hinv1) as [Hqlt Hqnd].
  destruct (moved_bytes_shape n y (seq 0 n) (fun i => q !!! i)
              (fun i => i) Hb) as [Hlz Hbz].
  { apply Forall_forall. intros i Hin. apply elem_of_seq in Hin. lia. }
  exists (moved_back n y q). split; [exact Hlz |]. split; [exact Hbz |].
  split.
  - intros st. rewrite (py_bind_run _ _ st st p (Hrun st)).
    rewrite Hq, py_bind_lift_Ok. unfold lift, moved_back.
    now rewrite unscatter_ok by done.
  - intros st. rewrite (py_bind_run _ _ st st p (Hrun st)).
    unfold lift. rewrite scatter_ok by done. do 2 f_equal.
    now apply scatter_unscatter.
Qed.

(** [encode], given what its position stage returns. *)
Lemma encode_with_stage (img : Image) (password : string) (shuffle : bool)
  (y : bytes) :
  wf_image img ->
  length y = 4 * length (img_data img) -> all_bytes y ->
  (forall st : interp,
     (if shuffle then
        indices <- _shuffle_indices (4 * length (img_data img))
                     (password_seed password) ;;
        lift (scatter
                (zip_with Z.lxor (concat (img_data img))
                   (_key_stream password (4 * length (img_data img))))
                indices (4 * length (img_data img)))
      else
        py_ret (zip_with Z.lxor (concat (img_data img))
                  (_key_stream password (4 * length (img_data img))))) st
     = (Ok y, st)) ->
  forall st : interp,
    encode img password shuffle st
    = (Ok (mk_image (img_width img) (img_height img) (rows 4 y)), st).
Proof.
  intros Hwf Hly Hby Hstage st.
  apply wf_image_data in Hwf as [Hcount Hpx].
  destruct (flatten_rgba _ Hpx) as (Hflat & Hlen & Hb & _).
  pose proof (key_stream_length password (4 * length (img_data img))) as Hlk.
  pose proof (key_stream_all_bytes password (4 * length (img_data img)))
    as Hbk.
  unfold encode. cbv zeta.
  rewrite Hflat, py_bind_lift_Ok, Hlen.
  rewrite xor_key_ok by done. rewrite py_bind_lift_Ok.
  rewrite (py_bind_run _ _ st st y (Hstage st)).
  rewrite bytes_to_pixels_rows by done. rewrite py_bind_lift_Ok.
  unfold lift. f_equal.
  destruct (rows_rgba y (length (img_data img)) Hly Hby) as (Hr & Hlr & _).
  apply putdata_exact; [lia | exact Hr].
Qed.

(** X9. The shuffle only moves bytes: with the same password, the buffer
    of the image encoded with the shuffle holds at position [p[i]] the
    byte that the buffer of the image encoded without it holds at
    position [i], where [p] is the list [_shuffle_indices] returns for
    the length of the buffer and the seed of the password; so the two
    buffers hold the same bytes, in another order. *)
Theorem shuffle_moves_bytes (img : Image) (password : string) (st : interp) :
  wf_image img ->
  exists p shuffled plain,
    _shuffle_indices (4 * length (img_data img)) (password_seed password) st
    = (Ok p, st)
    /\ encode img password true st = (Ok shuffled, st)
    /\ encode img password false st = (Ok plain, st)
    /\ (forall i j, p !! i = Some j ->
          concat (img_data shuffled) !! j = concat (img_data plain) !! i)
    /\ concat (img_data shuffled) ≡ₚ concat (img_data plain).
Proof.
  intros Hwf. pose proof Hwf as Hwf'.
  apply wf_image_data in Hwf' as [Hcount Hpx].
  destruct (flatten_rgba _ Hpx) as (_ & Hlen & Hb & _).
  set (n := 4 * length (img_data img)) in *.
  pose proof (key_stream_length password n) as Hlk.
  pose proof (key_stream_all_bytes password n) as Hbk.
  set (x := zip_with Z.lxor (concat (img_data img)) (_key_stream password n)).
  assert (Hlx : length x = n) by (unfold x; rewrite zip_xor_length; lia).
  assert (Hbx : all_bytes x) by now apply zip_xor_all_bytes.
  destruct (shuffle_stage_moved password n x Hlx Hbx)
    as (p & Hp & Hrun & Hstage).
  pose proof (moved_length p n x) as Hlm.
  pose proof (moved_Permutation p n x Hp Hlx) as Hperm.
  assert (Hbm : all_bytes (moved n x p)).
  { unfold all_bytes. now rewrite Hperm. }
  destruct (rows_rgba (moved n x p) _ Hlm Hbm) as (_ & _ & Hcm).
  destruct (rows_rgba x _ Hlx Hbx) as (_ & _ & Hcx).
  exists p, (mk_image (img_width img) (img_height img)
               (rows 4 (moved n x p))),
    (mk_image (img_width img) (img_height img) (rows 4 x)).
  split; [apply Hrun |]. split; [| split].
  - now apply (encode_with_stage img password true (moved n x p)).
  - now apply (encode_with_stage img password false x).
  - cbn [img_data]. rewrite Hcm, Hcx. split; [| exact Hperm].
    intros i j Hij. rewrite (moved_lookup p n x i j Hp Hij).
    symmetry. apply list_lookup_lookup_total_lt.
    rewrite Hlx, <- (perm_seq_length p n Hp).
    now apply lookup_lt_Some in Hij.
Qed.

Lemma decode_then_encode (img : Image) (password : string) (flag : bool)
  (st st' : interp) :
  wf_image img ->
  exists dec,
    decode img password flag st = (Ok dec, st)
    /\ encode dec password flag st' = (Ok img, st').
Proof.
  intros Hwf. apply wf_image_data in Hwf as [Hcount Hpx].
  destruct (flatten_rgba _ Hpx) as (_ & Hlen & Hb & Hrows).
  destruct (unshuffle_then_shuffle password (length (concat (img_data img)))
              (concat (img_data img)) flag eq_refl Hb)
    as (z & Hlz & Hbz & Hback & Hfwd).
  pose proof (key_stream_length password (length (concat (img_data img))))
    as Hlk.
  pose proof (key_stream_all_bytes password (length (concat (img_data img))))
    as Hbk.
  set (u := zip_with Z.lxor z
              (_key_stream password (length (concat (img_data img))))).
  assert (Hlu : length u = 4 * (img_width img * img_height img)).
  { unfold u. rewrite zip_xor_length; lia. }
  assert (Hbu : all_bytes u) by now apply zip_xor_all_bytes.
  destruct (rows_rgba u _ Hlu Hbu) as (Hru & Hlru & Hcu).
  exists (mk_image (img_width img) (img_height img) (rows 4 u)). split.
  - pose proof (decode_rows (img_width img) (img_height img) password flag
                  (concat (img_data img)) z) as Hd.
    rewrite Hrows in Hd. destruct img as [w h data].
    cbn [img_data img_width img_height] in *.
    apply Hd; (done || lia).
  - pose proof (encode_with_stage
                  (mk_image (img_width img) (img_height img) (rows 4 u))
                  password flag (concat (img_data img))) as He.
    cbn [img_data img_width img_height] in He.
    assert (E : 4 * length (rows 4 u) = length (concat (img_data img)))
      by lia.
    rewrite Hcu, E in He.
    assert (Hz : zip_with Z.lxor u
                   (_key_stream password (length (concat (img_data img))))
                 = z).
    { unfold u. apply zip_xor_involutive. lia. }
    rewrite Hz, Hrows in He.
    rewrite He; [now destruct img | | reflexivity | exact Hb | exact Hfwd].
    apply wf_image_data. cbn [img_data img_width img_height].
    split; [exact Hlru | exact Hru].
Qed.

(** X10. The round trip also holds in the other order: for every
    well-formed RGBA image, password and flag, [decode] succeeds and
    [encode] with the same password and flag applied to its result gives
    the image back. [encode] and [decode] are inverse bijections on the
    images of one size. *)
Theorem decode_encode_round_trip (img : Image) (password : string)
  (flag : bool) (st st' : interp) :
  wf_image img ->
  exists dec,
    decode img password flag st = (Ok dec, st)
    /\ encode dec password flag st' = (Ok img, st').
Proof. exact (decode_then_encode img password flag st st'). Qed.

Lemma encode_is_decode_without_shuffle (img : Image) (password : string)
  (st : interp) :
  encode img password false st = decode img password false st.
Proof.
  unfold encode, decode. cbv zeta. unfold py_bind at 1 3.
  unfold lift at 1 5. destruct (_pixels_to_bytes (img_data img) 4);
    reflexivity.
Qed.

(** X11. Without the shuffle the two directions are one function:
    [encode] and [decode] with the flag off return the same result on
    every image, well-formed or not, so encoding a well-formed image
    twice with the same password gives it back. *)
Theorem xor_only_mode_involutive (img : Image) (password : string)
  (st st' : interp) :
  encode img password false st = decode img password false st
  /\ (wf_image img ->
        exists enc,
          encode img password false st = (Ok enc, st)
          /\ encode enc password false st' = (Ok img, st')).
Proof.
  split; [apply encode_is_decode_without_shuffle |].
  intros Hwf.
  destruct (round_trip img password false st st' Hwf) as (enc & Henc & Hdec).
  exists enc. split; [exact Henc |].
  now rewrite encode_is_decode_without_shuffle.
Qed.

(** X12. Through the files: after [encrypt_image] from [a] to [b] and
    [decrypt_image] from [b] to [c] with the same password and flag, the
    file [c] holds the image that [a] held, also when the paths
    coincide, and the generator objects are as they were. *)
Theorem encrypt_then_decrypt_restores_file (a b c password : string)
  (flag : bool) (st : interp) (img : Image) :
  files st !! a = Some img ->
  wf_image img ->
  exists st1 st2,
    encrypt_image a b password flag st = (Ok tt, st1)
    /\ decrypt_image b c password flag st1 = (Ok tt, st2)
    /\ files st2 !! c = Some img
    /\ generators st2 = generators st.
Proof. exact (encrypt_decrypt_files a b c password flag st img). Qed.

Lemma main_command_missing (args : Namespace) (st : interp) :
  files st !! args_input args = None ->
  main_command args st = (Raise FileNotFoundError, st).
Proof.
  intros Hnone. unfold main_command.
  destruct (args_command args);
    unfold encrypt_image, decrypt_image, py_bind, Image_open;
    now rewrite Hnone.
Qed.

(** X13. A missing input file: [encrypt_image] and [decrypt_image]
    raise [FileNotFoundError] before anything is written or printed, and
    [main] then prints the line ["Error: Input image not found: "]
    followed by the input path and ends with [SystemExit(1)]; no file
    and no generator changes. *)
Theorem main_missing_input (args : Namespace) (st : interp) :
  files st !! args_input args = None ->
  encrypt_image (args_input args) (args_output args) (args_password args)
    (negb (args_no_shuffle args)) st = (Raise FileNotFoundError, st)
  /\ decrypt_image (args_input args) (args_output args) (args_password args)
       (negb (args_no_shuffle args)) st = (Raise FileNotFoundError, st)
  /\ main args st
     = (SystemExit 1,
        Interp (generators st) (files st)
          (stdout st
             ++ [String.append "Error: "
                   (String.append "Input image not found: "
                      (args_input args))])).
Proof.
  intros Hnone. split; [| split].
  - unfold encrypt_image, py_bind, Image_open. now rewrite Hnone.
  - unfold decrypt_image, py_bind, Image_open. now rewrite Hnone.
  - unfold main. now rewrite main_command_missing.
Qed.


End PipelinesCompleted.

Lemma shuffle_moves_bytes_witness :
  wf_image sample_image
  /\ exists p shuffled plain,
       _shuffle_indices 16 (password_seed "test") initial_interp
       = (Ok p, initial_interp)
       /\ encode sample_image "test" true initial_interp
          = (Ok shuffled, initial_interp)
       /\ encode sample_image "test" false initial_interp
          = (Ok plain, initial_interp)
       /\ concat (img_data shuffled) ≡ₚ concat (img_data plain).
Proof.
  assert (Hwf : wf_image sample_image) by reflexivity.
  split; [exact Hwf |].
  destruct (shuffle_moves_bytes sample_image "test" initial_interp Hwf)
    as (p & shuffled & plain & Hp & Hs & Hpl & _ & Hperm).
  exists p, shuffled, plain. repeat split; assumption.
Defined.

Lemma decode_encode_round_trip_witness :
  wf_image sample_image
  /\ exists dec,
       decode sample_image "test" true initial_interp
       = (Ok dec, initial_interp)
       /\ encode dec "test" true initial_interp
          = (Ok sample_image, initial_interp).
Proof.
  split; [reflexivity |].
  apply (decode_encode_round_trip sample_image "test" true
           initial_interp initial_interp).
  reflexivity.
Defined.

Lemma xor_only_mode_involutive_witness :
  wf_image sample_image
  /\ exists enc,
       encode sample_image "test" false initial_interp
       = (Ok enc, initial_interp)
       /\ encode enc "test" false initial_interp
          = (Ok sample_image, initial_interp).
Proof.
  split; [reflexivity |].
  apply (proj2 (xor_only_mode_involutive sample_image "test"
                  initial_interp initial_interp)).
  reflexivity.
Defined.

Lemma encrypt_then_decrypt_restores_file_witness :
  files sample_interp !! "in.png" = Some sample_image
  /\ wf_image sample_image
  /\ exists st1 st2,
       encrypt_image "in.png" "in.png" "test" true sample_interp
       = (Ok tt, st1)
       /\ decrypt_image "in.png" "in.png" "test" true st1 = (Ok tt, st2)
       /\ files st2 !! "in.png" = Some sample_image
       /\ generators st2 = generators sample_interp.
Proof.
  assert (Hfile : files sample_interp !! "in.png" = Some sample_image)
    by reflexivity.
  assert (Hwf : wf_image sample_image) by reflexivity.
  split; [exact Hfile |]. split; [exact Hwf |].
  exact (encrypt_then_decrypt_restores_file "in.png" "in.png" "in.png"
           "test" true sample_interp sample_image Hfile Hwf).
Defined.

Lemma main_missing_input_witness :
  files initial_interp !! args_input sample_encrypt_args = None
  /\ main sample_encrypt_args initial_interp
     = (SystemExit 1,
        Interp (generators initial_interp) (files initial_interp)
          ["Error: Input image not found: in.png"]).
Proof.
  assert (Hnone : files initial_interp !! args_input sample_encrypt_args
                  = None) by reflexivity.
  split; [exact Hnone |].
  exact (proj2 (proj2 (main_missing_input sample_encrypt_args
                         initial_interp Hnone))).
Defined.


(** * The first version of the script *)

(** ** [xor_pixels] *)

Lemma for_each_fmap {A B S} (f : A -> B) (xs : list A)
  (body : B -> S -> result S) (s : S) :
  for_each (f <$> xs) body s = for_each xs (fun x s => body (f x) s) s.
Proof.
  revert s. induction xs as [| x xs IH]; intros s; [reflexivity |].
  cbn. destruct (body (f x) s); [apply IH | reflexivity].
Qed.

Lemma for_each_nested {A B S} (xs : list A) (ys : list B)
  (body : A -> B -> S -> result S) (s : S) :
  for_each xs (fun x s => for_each ys (fun y s => body x y s) s) s
  = for_each (xs ≫= fun x => (fun y => (x, y)) <$> ys)
      (fun pr s => body pr.1 pr.2 s) s.
Proof.
  revert s. induction xs as [| x xs IH]; intros s; [reflexivity |].
  cbn [for_each]. change ((x :: xs) ≫= ?f) with (f x ++ (xs ≫= f)).
  rewrite for_each_app, for_each_fmap. cbn [fst snd].
  destruct (for_each ys (fun y s => body x y s) s); [apply IH | reflexivity].
Qed.

Lemma rgb_pixelb_true (p : list Z) :
  rgb_pixelb p = true
  <-> exists r g b, p = [r; g; b] /\ is_byte r /\ is_byte g /\ is_byte b.
Proof.
  unfold rgb_pixelb. rewrite andb_true_iff, Nat.eqb_eq. split.
  - intros [Hl Hb]. destruct p as [| r [| g [| b [| ? ?]]]]; try discriminate.
    exists r, g, b. cbn in Hb. rewrite !andb_true_iff in Hb.
    destruct Hb as (Hr & Hg & Hb' & _).
    split; [reflexivity |]. now rewrite <- !is_byteb_true.
  - intros (r & g & b & -> & Hr & Hg & Hb). split; [reflexivity |].
    cbn. apply is_byteb_true in Hr, Hg, Hb. now rewrite Hr, Hg, Hb.
Qed.

Lemma wf_rgb_image_data (img : Image) :
  wf_rgb_image img <->
  length (img_data img) = img_width img * img_height img
  /\ Forall (fun p => rgb_pixelb p = true) (img_data img).
Proof.
  unfold wf_rgb_image, wf_rgb_imageb.
  rewrite andb_true_iff, Nat.eqb_eq, forallb_forall, Forall_forall.
  split; intros [Hl Hp]; (split; [exact Hl |]); intros p Hin;
    apply Hp; now apply list_elem_of_In.
Qed.

Lemma xor_tuple_rgb (key : Z) (p : list Z) :
  is_byte key -> rgb_pixelb p = true -> rgb_pixelb (xor_tuple key p) = true.
Proof.
  intros Hk Hp. apply rgb_pixelb_true in Hp as (r & g & b & -> & Hr & Hg & Hb).
  apply rgb_pixelb_true. eexists _, _, _. split; [reflexivity |].
  repeat split; now apply is_byte_lxor.
Qed.

Lemma xor_tuple_cancel (key : Z) (p : list Z) :
  xor_tuple key (xor_tuple key p) = p.
Proof.
  unfold xor_tuple. rewrite map_map. rewrite <- (map_id p) at 2.
  apply map_ext. intros v. apply lxor_cancel.
Qed.

Lemma pixel_index_lt (w h : nat) (pr : nat * nat) :
  pr.1 < w -> pr.2 < h -> pixel_index w pr < w * h.
Proof. unfold pixel_index. nia. Qed.

Lemma pixel_index_inj (w : nat) (pr1 pr2 : nat * nat) :
  pr1.1 < w -> pr2.1 < w ->
  pixel_index w pr1 = pixel_index w pr2 -> pr1 = pr2.
Proof.
  destruct pr1 as [x1 y1], pr2 as [x2 y2]. unfold pixel_index. cbn.
  intros H1 H2 Heq.
  assert (Hy : y1 = y2) by nia. subst y2.
  f_equal. lia.
Qed.

Lemma xor_pixel_ok (key : Z) (w h x y : nat) (data : list (list Z))
  (p : list Z) :
  is_byte key -> x < w -> y < h ->
  data !! (y * w + x) = Some p -> rgb_pixelb p = true ->
  xor_pixel key x y (mk_image w h data)
  = Ok (mk_image w h (<[y * w + x := xor_tuple key p]> data)).
Proof.
  intros Hk Hx Hy Hp Hrgb. unfold xor_pixel, pixel_get.
  cbn [img_width img_height img_data].
  rewrite decide_True by done. rewrite (getitem_Some _ _ p Hp). run_result.
  pose proof (xor_tuple_rgb key p Hk Hrgb) as Hrgb'.
  apply rgb_pixelb_true in Hrgb as (r & g & b & -> & _).
  unfold pixel_set. cbn [img_width img_height img_data].
  rewrite decide_True by done.
  change [Z.lxor r key; Z.lxor g key; Z.lxor b key]
    with (xor_tuple key [r; g; b]).
  rewrite Hrgb'. rewrite list_setitem_lt by now apply lookup_lt_Some in Hp.
  reflexivity.
Qed.

Lemma xor_pairs_run (key : Z) (w h : nat) (data0 : list (list Z)) :
  is_byte key ->
  Forall (fun p => rgb_pixelb p = true) data0 ->
  length data0 = w * h ->
  forall pairs : list (nat * nat),
    NoDup (pixel_index w <$> pairs) ->
    Forall (fun pr => pr.1 < w /\ pr.2 < h) pairs ->
    forall data : list (list Z),
      length data = w * h ->
      (forall pr, pr ∈ pairs ->
         data !! pixel_index w pr = data0 !! pixel_index w pr) ->
      for_each pairs (fun pr img => xor_pixel key pr.1 pr.2 img)
        (mk_image w h data)
      = Ok (mk_image w h
              (apply_writes data
                 (map (fun pr => (pixel_index w pr,
                                  xor_tuple key (data0 !!! pixel_index w pr)))
                    pairs))).
Proof.
  intros Hk Hrgb Hlen0. induction pairs as [| pr pairs IH];
    intros Hnd Hin data Hlen Hsame; [reflexivity |].
  cbn in Hnd. apply NoDup_cons in Hnd as [Hfresh Hnd].
  apply Forall_cons in Hin as [[Hx Hy] Hin].
  pose proof (pixel_index_lt w h pr Hx Hy) as Hidx.
  destruct (lookup_lt_is_Some_2 data0 (pixel_index w pr)) as [p Hp]; [lia |].
  cbn [for_each].
  rewrite (xor_pixel_ok key w h pr.1 pr.2 data p); try done.
  2: { fold (pixel_index w pr). rewrite Hsame by apply list_elem_of_here.
       exact Hp. }
  2: { now apply (Forall_lookup_1 _ _ _ _ Hrgb Hp). }
  run_result. fold (pixel_index w pr).
  rewrite IH; try done.
  - cbn [map]. unfold apply_writes at 2. cbn [fold_left fst snd].
    apply list_lookup_total_correct in Hp. now rewrite Hp.
  - now rewrite length_insert.
  - intros pr' Hin'. rewrite list_lookup_insert_ne.
    + apply Hsame. now apply list_elem_of_further.
    + intros Heq. apply Hfresh. rewrite Heq.
      now apply list_elem_of_fmap_2.
Qed.

Lemma all_pairs_spec (w h : nat) (pr : nat * nat) :
  pr ∈ (seq 0 w ≫= fun x => (fun y => (x, y)) <$> seq 0 h)
  <-> pr.1 < w /\ pr.2 < h.
Proof.
  rewrite list_elem_of_bind. split.
  - intros (x & Hin & Hx). apply list_elem_of_fmap in Hin as (y & -> & Hy).
    apply elem_of_seq in Hx, Hy. cbn. lia.
  - intros [Hx Hy]. exists pr.1. split; [| apply elem_of_seq; lia].
    apply list_elem_of_fmap. exists pr.2.
    split; [now destruct pr | apply elem_of_seq; lia].
Qed.

Lemma all_pairs_NoDup (w h : nat) :
  NoDup (pixel_index w
           <$> (seq 0 w ≫= fun x => (fun y => (x, y)) <$> seq 0 h)).
Proof.
  apply NoDup_fmap_2_strong.
  - intros pr1 pr2 H1 H2. apply all_pairs_spec in H1, H2.
    apply pixel_index_inj; tauto.
  - apply NoDup_bind; [| | apply NoDup_seq].
    + intros x1 x2 pr _ _ H1 H2.
      apply list_elem_of_fmap in H1 as (y1 & -> & _).
      apply list_elem_of_fmap in H2 as (y2 & Heq & _). now inversion Heq.
    + intros x _. apply NoDup_fmap_2; [| apply NoDup_seq].
      intros y1 y2 Heq. now inversion Heq.
Qed.

Lemma xor_pixels_run (img : Image) (key : Z) :
  wf_rgb_image img -> is_byte key ->
  xor_pixels img key
  = Ok (mk_image (img_width img) (img_height img)
          (map (xor_tuple key) (img_data img))).
Proof.
  intros Hwf Hk. apply wf_rgb_image_data in Hwf as [Hlen Hrgb].
  destruct img as [w h data]. cbn [img_width img_height img_data] in *.
  unfold xor_pixels. cbn [img_width img_height].
  rewrite (for_each_nested (seq 0 w) (seq 0 h)
             (fun x y img => xor_pixel key x y img)).
  rewrite (xor_pairs_run key w h data Hk Hrgb Hlen); try done.
  2: { apply all_pairs_NoDup. }
  2: { apply Forall_forall. intros pr Hin. now apply all_pairs_spec. }
  do 2 f_equal.
  apply (list_eq_same_length _ _ (w * h)).
  - now rewrite length_map.
  - now rewrite apply_writes_length.
  - intros k a b Hk' Ha Hb.
    assert (Hw : 0 < w) by (destruct w; [cbn in Hk'; lia | lia]).
    assert (Hidx : pixel_index w (k mod w, k / w) = k).
    { unfold pixel_index. cbn. pose proof (Nat.div_mod_eq k w). lia. }
    assert (Hpr : (k mod w) < w /\ k / w < h).
    { split; [apply Nat.mod_upper_bound; lia |].
      apply Nat.Div0.div_lt_upper_bound. lia. }
    rewrite (apply_writes_lookup _ _ k (xor_tuple key (data !!! k))) in Ha.
    + inversion Ha; subst a.
      change (map ?f ?l) with (f <$> l) in Hb.
      rewrite list_lookup_fmap in Hb.
      rewrite (list_lookup_lookup_total_lt data k) in Hb by lia.
      now inversion Hb.
    + change (fmap fst (map ?f ?l)) with (map fst (map f l)).
      rewrite map_map. cbn [fst]. apply all_pairs_NoDup.
    + apply list_elem_of_In, in_map_iff. exists (k mod w, k / w).
      split; [now rewrite Hidx |].
      apply list_elem_of_In, all_pairs_spec. exact Hpr.
    + lia.
Qed.

(** X15. [xor_pixels] of the first script, on an RGB image and with a
    key in [0, 256): it raises nothing, keeps the size, replaces every
    channel value [v] by [v xor key], and applied a second time with the
    same key it gives the image back. *)
Theorem xor_pixels_involutive (img : Image) (key : Z) :
  wf_rgb_image img -> is_byte key ->
  exists out,
    xor_pixels img key = Ok out
    /\ img_width out = img_width img
    /\ img_height out = img_height img
    /\ img_data out = map (map (fun v => Z.lxor v key)) (img_data img)
    /\ wf_rgb_image out
    /\ xor_pixels out key = Ok img.
Proof.
  intros Hwf Hk.
  assert (Hwf' : wf_rgb_image
                   (mk_image (img_width img) (img_height img)
                      (map (xor_tuple key) (img_data img)))).
  { apply wf_rgb_image_data in Hwf as [Hlen Hrgb].
    apply wf_rgb_image_data. cbn [img_width img_height img_data].
    split; [now rewrite length_map |].
    apply Forall_forall. intros p Hin.
    apply list_elem_of_In, in_map_iff in Hin as (p0 & <- & Hin).
    apply xor_tuple_rgb; [done |].
    now apply (proj1 (Forall_forall _ _) Hrgb), list_elem_of_In. }
  eexists. split; [now apply xor_pixels_run |].
  cbn [img_width img_height img_data]. repeat split; try done.
  rewrite xor_pixels_run by done. cbn [img_width img_height img_data].
  rewrite map_map. destruct img as [w h data]. cbn. do 2 f_equal.
  rewrite <- (map_id data) at 2. apply map_ext. intros p.
  apply xor_tuple_cancel.
Qed.

Lemma xor_pixels_involutive_witness :
  wf_rgb_image sample_rgb_image /\ is_byte 7
  /\ exists out,
       xor_pixels sample_rgb_image 7 = Ok out
       /\ img_data out
          = [[7; 7; 7]; [13; 19; 25]; [248; 248; 248]; [6; 5; 4]]%Z
       /\ xor_pixels out 7 = Ok sample_rgb_image.
Proof.
  assert (Hwf : wf_rgb_image sample_rgb_image) by reflexivity.
  assert (Hk : is_byte 7) by (unfold is_byte; lia).
  split; [exact Hwf |]. split; [exact Hk |].
  destruct (xor_pixels_involutive sample_rgb_image 7 Hwf Hk)
    as (out & Hout & _ & _ & Hdata & _ & Hback).
  exists out. split; [exact Hout |]. split; [exact Hdata | exact Hback].
Defined.

(** ** [swap_pixels] *)

Section SwapPixels.

Context {R : PyRandom}.

Lemma simulates_ret {A} (a : A) : simulates (py_ret a) (gen_ret a).
Proof.
  intros st s Hs. unfold py_ret, gen_ret. cbn [fst snd].
  now rewrite insert_id, set_generators_same.
Qed.

Lemma simulates_lift {A} (r : result A) : simulates (lift r) (gen_lift r).
Proof.
  intros st s Hs. unfold lift, gen_lift. cbn [fst snd].
  now rewrite insert_id, set_generators_same.
Qed.

Lemma simulates_bind {A B} (m : Py A) (g : Gen A) (k : A -> Py B)
  (h : A -> Gen B) :
  simulates m g -> (forall a, simulates (k a) (h a)) ->
  simulates (py_bind m k) (gen_bind g h).
Proof.
  intros Hm Hk st s Hs. unfold py_bind, gen_bind. rewrite (Hm st s Hs).
  destruct (g s) as [[a | e] s1]; cbn [fst snd]; [| reflexivity].
  rewrite (Hk a _ s1).
  - cbn [generators set_generators files stdout].
    now rewrite insert_insert_eq.
  - cbn. apply lookup_insert_eq.
Qed.

Lemma simulates_randint (a b : Z) :
  simulates (random_randint a b) (randint_gen a b).
Proof.
  intros st s Hs. unfold random_randint, randint_gen.
  destruct (decide (0 < b + 1 - a)%Z) as [Hpos | Hneg].
  - unfold py_bind, Random_randbelow, py_ret. now rewrite Hs.
  - unfold lift. cbn [fst snd]. now rewrite insert_id, set_generators_same.
Qed.

Lemma simulates_swap_round (width height : nat) (img : Image) :
  simulates (swap_round width height img) (swap_round_gen width height img).
Proof.
  unfold swap_round, swap_round_gen.
  repeat (apply simulates_bind;
          [apply simulates_randint || apply simulates_lift | intros ?]).
  apply simulates_lift.
Qed.

Lemma simulates_swap_rounds (width height count : nat) :
  forall img : Image,
    simulates (swap_rounds width height count img)
      (swap_rounds_gen width height count img).
Proof.
  induction count as [| count IH]; intros img.
  - apply simulates_ret.
  - cbn [swap_rounds swap_rounds_gen].
    apply simulates_bind; [apply simulates_swap_round | exact IH].
Qed.

(** [swap_pixels] in terms of the run on the generator seeded with the
    key. *)
Lemma swap_pixels_run (img : Image) (key : Z) (st : interp) :
  swap_pixels img key st
  = (fst (swap_rounds_gen (img_width img) (img_height img) 10000 img
            (seed_state key)),
     set_generators
       (<[module_rng :=
            snd (swap_rounds_gen (img_width img) (img_height img) 10000 img
                   (seed_state key))]> (generators st)) st).
Proof.
  unfold swap_pixels. cbv zeta. unfold py_bind at 1, random_seed.
  rewrite (simulates_swap_rounds _ _ _ img _ (seed_state key)).
  - cbn [generators set_generators files stdout].
    now rewrite insert_insert_eq.
  - cbn. apply lookup_insert_eq.
Qed.

Lemma gen_bind_run {A B} (m : Gen A) (k : A -> Gen B) (s s' : rng_state)
  (a : A) :
  m s = (Ok a, s') -> gen_bind m k s = k a s'.
Proof. intros Hm. unfold gen_bind. now rewrite Hm. Qed.

Lemma randint_gen_range (w : nat) (s : rng_state) :
  0 < w ->
  exists v s',
    randint_gen 0 (Z.of_nat w - 1) s = (Ok (Z.of_nat v), s') /\ v < w.
Proof.
  intros Hw. unfold randint_gen. rewrite decide_True by lia.
  replace (Z.to_nat (Z.of_nat w - 1 + 1 - 0)) with w by lia.
  exists (fst (randbelow s w)), (snd (randbelow s w)).
  split; [reflexivity | now apply randbelow_lt].
Qed.

Lemma randint_gen_empty (s : rng_state) :
  randint_gen 0 (Z.of_nat 0 - 1) s = (Raise ValueError, s).
Proof. reflexivity. Qed.

Lemma pixel_get_ok (w h x y : nat) (data : list (list Z)) (p : list Z) :
  x < w -> y < h -> data !! (y * w + x) = Some p ->
  pixel_get (mk_image w h data) x y = Ok p.
Proof.
  intros Hx Hy Hp. unfold pixel_get. cbn [img_width img_height img_data].
  rewrite decide_True by done. now apply getitem_Some.
Qed.

Lemma pixel_set_ok (w h x y : nat) (data : list (list Z)) (p : list Z) :
  x < w -> y < h -> y * w + x < length data -> rgb_pixelb p = true ->
  pixel_set (mk_image w h data) x y p
  = Ok (mk_image w h (<[y * w + x := p]> data)).
Proof.
  intros Hx Hy Hi Hp. unfold pixel_set. cbn [img_width img_height img_data].
  rewrite decide_True by done. rewrite Hp.
  now rewrite list_setitem_lt by done.
Qed.

Lemma swap_round_gen_ok (w h : nat) (data : list (list Z)) (s : rng_state) :
  0 < w -> 0 < h -> length data = w * h ->
  Forall (fun p => rgb_pixelb p = true) data ->
  exists data' s',
    swap_round_gen w h (mk_image w h data) s = (Ok (mk_image w h data'), s')
    /\ data' ≡ₚ data.
Proof.
  intros Hw Hh Hlen Hrgb. unfold swap_round_gen.
  destruct (randint_gen_range w s Hw) as (x1 & s1 & Hx1 & Hx1lt).
  destruct (randint_gen_range h s1 Hh) as (y1 & s2 & Hy1 & Hy1lt).
  destruct (randint_gen_range w s2 Hw) as (x2 & s3 & Hx2 & Hx2lt).
  destruct (randint_gen_range h s3 Hh) as (y2 & s4 & Hy2 & Hy2lt).
  rewrite (gen_bind_run _ _ _ _ _ Hx1), (gen_bind_run _ _ _ _ _ Hy1).
  rewrite (gen_bind_run _ _ _ _ _ Hx2), (gen_bind_run _ _ _ _ _ Hy2).
  rewrite !Nat2Z.id.
  pose proof (pixel_index_lt w h (x1, y1) Hx1lt Hy1lt) as Hi1.
  pose proof (pixel_index_lt w h (x2, y2) Hx2lt Hy2lt) as Hi2.
  unfold pixel_index in Hi1, Hi2. cbn [fst snd] in Hi1, Hi2.
  destruct (lookup_lt_is_Some_2 data (y1 * w + x1)) as [temp Htemp]; [lia |].
  destruct (lookup_lt_is_Some_2 data (y2 * w + x2)) as [other Hother];
    [lia |].
  unfold gen_bind, gen_lift.
  rewrite (pixel_get_ok w h x1 y1 data temp) by done.
  rewrite (pixel_get_ok w h x2 y2 data other) by done.
  rewrite (pixel_set_ok w h x1 y1 data other); try done; try lia.
  2: { now apply (Forall_lookup_1 _ _ _ _ Hrgb Hother). }
  rewrite (pixel_set_ok w h x2 y2 _ temp); try done.
  2: { rewrite length_insert. lia. }
  2: { now apply (Forall_lookup_1 _ _ _ _ Hrgb Htemp). }
  eexists. eexists. split; [reflexivity |].
  now apply swap_Permutation.
Qed.

Lemma swap_rounds_gen_ok (w h count : nat) :
  0 < w -> 0 < h ->
  forall (data : list (list Z)) (s : rng_state),
    length data = w * h ->
    Forall (fun p => rgb_pixelb p = true) data ->
    exists data' s',
      swap_rounds_gen w h count (mk_image w h data) s
      = (Ok (mk_image w h data'), s')
      /\ data' ≡ₚ data.
Proof.
  intros Hw Hh. induction count as [| count IH]; intros data s Hlen Hrgb.
  - exists data, s. split; reflexivity.
  - destruct (swap_round_gen_ok w h data s Hw Hh Hlen Hrgb)
      as (data1 & s1 & Hround & Hperm1).
    destruct (IH data1 s1) as (data' & s' & Hrest & Hperm').
    { now rewrite (Permutation_length Hperm1). }
    { now rewrite Hperm1. }
    exists data', s'. split; [| now rewrite Hperm'].
    cbn [swap_rounds_gen]. now rewrite (gen_bind_run _ _ _ _ _ Hround).
Qed.

Lemma swap_round_gen_empty (w h : nat) (img : Image) (s : rng_state) :
  w = 0 \/ h = 0 ->
  fst (swap_round_gen w h img s) = Raise ValueError.
Proof.
  intros Hzero. unfold swap_round_gen.
  destruct (decide (w = 0)) as [-> | Hw].
  - unfold gen_bind at 1. now rewrite randint_gen_empty.
  - destruct Hzero as [? | ->]; [contradiction |].
    destruct (randint_gen_range w s) as (x1 & s1 & Hx1 & _); [lia |].
    rewrite (gen_bind_run _ _ _ _ _ Hx1).
    unfold gen_bind at 1. now rewrite randint_gen_empty.
Qed.

(** X16. [swap_pixels] of the first script, on an RGB image that has at
    least one pixel: the ten thousand swaps raise nothing, the image
    keeps its size, and it holds the same pixels as before, in another
    order. *)
Theorem swap_pixels_permutes (img : Image) (key : Z) (st : interp) :
  wf_rgb_image img -> 0 < img_width img -> 0 < img_height img ->
  exists out,
    fst (swap_pixels img key st) = Ok out
    /\ img_width out = img_width img
    /\ img_height out = img_height img
    /\ img_data out ≡ₚ img_data img
    /\ wf_rgb_image out.
Proof.
  intros Hwf Hw Hh. rewrite swap_pixels_run. cbn [fst].
  apply wf_rgb_image_data in Hwf as [Hlen Hrgb].
  destruct img as [w h data]. cbn [img_width img_height img_data] in *.
  destruct (swap_rounds_gen_ok w h 10000 Hw Hh data (seed_state key)
              Hlen Hrgb) as (data' & s' & Hrun & Hperm).
  exists (mk_image w h data'). rewrite Hrun.
  cbn [fst img_width img_height img_data]. repeat split; try done.
  apply wf_rgb_image_data. cbn [img_width img_height img_data].
  split; [now rewrite (Permutation_length Hperm) | now rewrite Hperm].
Qed.

(** X17. [swap_pixels] on an image without pixels: when the width or the
    height is 0, the first [randint] with an empty range raises
    [ValueError]; no file and no output changes. *)
Theorem swap_pixels_empty_image (img : Image) (key : Z) (st : interp) :
  img_width img = 0 \/ img_height img = 0 ->
  fst (swap_pixels img key st) = Raise ValueError
  /\ files (snd (swap_pixels img key st)) = files st
  /\ stdout (snd (swap_pixels img key st)) = stdout st.
Proof.
  intros Hzero. rewrite swap_pixels_run. cbn [fst snd files stdout
                                               set_generators].
  split; [| split; reflexivity].
  assert (Hcount : 10000 = S 9999) by reflexivity.
  rewrite Hcount. cbn [swap_rounds_gen]. unfold gen_bind.
  pose proof (swap_round_gen_empty (img_width img) (img_height img) img
                (seed_state key) Hzero) as Hraise.
  destruct (swap_round_gen (img_width img) (img_height img) img
              (seed_state key)) as [[img' | e] s']; cbn in Hraise.
  - discriminate.
  - cbn. exact Hraise.
Qed.

(** X18. [swap_pixels] works on the module-level generator: its result
    and the state in which it leaves that generator depend on the image
    and the key only, whatever the state before; every other generator
    object, the files and the output stay as they are; and a seeding of
    the module-level generator done before the call is lost. *)
Theorem swap_pixels_reseeds_module_generator (img : Image) (key : Z) :
  exists (r : result Image) (s' : rng_state),
    (forall st : interp,
       swap_pixels img key st
       = (r, set_generators (<[module_rng := s']> (generators st)) st))
    /\ (forall (a : Z) (st : interp),
          (_ <- random_seed a ;; swap_pixels img key) st
          = swap_pixels img key st).
Proof.
  eexists. eexists. split.
  - intros st. apply swap_pixels_run.
  - intros a st. unfold py_bind at 1, random_seed at 1.
    rewrite !swap_pixels_run.
    cbn [generators set_generators files stdout].
    now rewrite insert_insert_eq.
Qed.

End SwapPixels.

Lemma swap_pixels_permutes_witness :
  wf_rgb_image sample_rgb_image
  /\ 0 < img_width sample_rgb_image /\ 0 < img_height sample_rgb_image
  /\ exists out,
       fst (swap_pixels sample_rgb_image 5 initial_interp) = Ok out
       /\ img_data out ≡ₚ img_data sample_rgb_image.
Proof.
  assert (Hwf : wf_rgb_image sample_rgb_image) by reflexivity.
  assert (Hw : 0 < img_width sample_rgb_image) by (cbn; lia).
  assert (Hh : 0 < img_height sample_rgb_image) by (cbn; lia).
  split; [exact Hwf |]. split; [exact Hw |]. split; [exact Hh |].
  destruct (swap_pixels_permutes sample_rgb_image 5 initial_interp Hwf Hw Hh)
    as (out & Hout & _ & _ & Hperm & _).
  exists out. split; [exact Hout | exact Hperm].
Defined.

Lemma swap_pixels_empty_image_witness :
  (img_width (mk_image 0 2 []) = 0 \/ img_height (mk_image 0 2 []) = 0)
  /\ fst (swap_pixels (mk_image 0 2 []) 5 initial_interp) = Raise ValueError.
Proof.
  assert (Hzero : img_width (mk_image 0 2 []) = 0
                  \/ img_height (mk_image 0 2 []) = 0) by (left; reflexivity).
  split; [exact Hzero |].
  exact (proj1 (swap_pixels_empty_image (mk_image 0 2 []) 5 initial_interp
                  Hzero)).
Defined.
